(** * TWINE block cipher (dgryski/go-twine): embedding of twine.go and its properties

    Bytes and nibbles are integers in [Z]; Go arrays and slices are lists whose
    indexing and assignment fail ([None]) outside their bounds, which is how a
    Go run-time panic is represented.  Each Go function body is the sequence
    of its assignments (loops unrolled over their index range), executed over
    a frame that holds the receiver's round keys, the arguments and the local
    variables. *)

From Stdlib Require Import ZArith List String Decimal DecimalString DecimalPos DecimalZ Lia.
From stdpp Require Import base option list numbers.
Import ListNotations.

(** ** Go run-time primitives *)

(** A value of Go type [byte]. *)
Definition is_byte (b : Z) : Prop := (0 <= b < 256)%Z.

(** A value that fits the low four bits of a byte. *)
Definition nibble (v : Z) : Prop := (0 <= v < 16)%Z.

(** [l[i] = v] on an array or slice: panics when [i] is out of range. *)
Definition store {A : Type} (l : list A) (i : nat) (v : A) : option (list A) :=
  if (i <? length l)%nat then Some (<[i:=v]> l) else None.

(** A statement transforms the frame or panics. *)
Definition stmt (F : Type) : Type := F -> option F.

Fixpoint exec {F : Type} (p : list (stmt F)) (s : F) : option F :=
  match p with
  | [] => Some s
  | c :: p' => match c s with
               | Some s' => exec p' s'
               | None => None
               end
  end.

(** [for i := lo; i < hi; i++ { body }] *)
Definition for_lt {F : Type} (lo hi : nat) (body : nat -> list (stmt F)) : list (stmt F) :=
  flat_map body (seq lo (hi - lo)).

(** [for i := lo; i <= hi; i++ { body }] *)
Definition for_le {F : Type} (lo hi : nat) (body : nat -> list (stmt F)) : list (stmt F) :=
  flat_map body (seq lo (S hi - lo)).

(** [for i := hi; i >= lo; i-- { body }] *)
Definition for_down {F : Type} (hi lo : nat) (body : nat -> list (stmt F)) : list (stmt F) :=
  flat_map body (rev (seq lo (S hi - lo))).

(** ** Tables *)

(* table 1 *)
Definition sbox : list Z :=
  [0x0C; 0x00; 0x0F; 0x0A; 0x02; 0x0B; 0x09; 0x05; 0x08; 0x03; 0x0D; 0x07; 0x01; 0x0E; 0x06; 0x04]%Z.

(* table 2 *)
Definition shuf : list nat := [5; 0; 1; 4; 7; 12; 3; 8; 13; 6; 9; 2; 15; 10; 11; 14].
Definition shufinv : list nat := [1; 2; 11; 6; 3; 0; 9; 4; 7; 10; 13; 14; 5; 8; 15; 12].

(* table 3 *)
Definition roundconst : list Z :=
  [0x00; (* filler *)
   0x01; 0x02; 0x04; 0x08; 0x10; 0x20; 0x03; 0x06; 0x0c; 0x18; 0x30; 0x23; 0x05; 0x0a; 0x14; 0x28; 0x13; 0x26;
   0x0f; 0x1e; 0x3c; 0x3b; 0x35; 0x29; 0x11; 0x22; 0x07; 0x0e; 0x1c; 0x38; 0x33; 0x25; 0x09; 0x12; 0x24; 0x0b]%Z.

(** ** The cipher instance and the key-size error *)

Record twineCipher : Type := mkTwine { rk : list (list Z) (* [37][8]byte *) }.

(** [type KeySizeError int] *)
Definition KeySizeError : Type := Z.

(** [strconv.Itoa] *)
Definition Itoa (n : Z) : string := NilZero.string_of_int (Z.to_int n).

Definition Error (k : KeySizeError) : string :=
  String.append "twine: invalid key size " (Itoa k).

Definition BlockSize (t : twineCipher) : Z := 8%Z.

(** ** Block transform *)

Module Block.

(** Frame of [Encrypt] and [Decrypt]: receiver, arguments, locals. *)
Record frame : Type := mk
  { t_rk : list (list Z);
    src : list Z;
    dst : list Z;
    x : list Z;           (* var x [16]byte *)
    xnext : list Z }.     (* var xnext [16]byte *)

Definition set_x (s : frame) (v : list Z) : frame :=
  mk (t_rk s) (src s) (dst s) v (xnext s).
Definition set_xnext (s : frame) (v : list Z) : frame :=
  mk (t_rk s) (src s) (dst s) (x s) v.
Definition set_dst (s : frame) (v : list Z) : frame :=
  mk (t_rk s) (src s) v (x s) (xnext s).

(** [x[2*i] = src[i] >> 4] *)
Definition unpack_hi (i : nat) : stmt frame := fun s =>
  b ← src s !! i;
  x' ← store (x s) (2 * i) (Z.shiftr b 4);
  Some (set_x s x').

(** [x[2*i+1] = src[i] & 0x0f] *)
Definition unpack_lo (i : nat) : stmt frame := fun s =>
  b ← src s !! i;
  x' ← store (x s) (2 * i + 1) (Z.land b 0x0f);
  Some (set_x s x').

(** [x[2*j+1] ^= sbox[x[2*j]^t.rk[i][j]]] *)
Definition feistel (i j : nat) : stmt frame := fun s =>
  a ← x s !! (2 * j);
  row ← t_rk s !! i;
  k ← row !! j;
  v ← sbox !! Z.to_nat (Z.lxor a k);
  b ← x s !! (2 * j + 1);
  x' ← store (x s) (2 * j + 1) (Z.lxor b v);
  Some (set_x s x').

(** [var xnext [16]byte] *)
Definition decl_xnext : stmt frame := fun s =>
  Some (set_xnext s (replicate 16 0%Z)).

(** [xnext[shuf[h]] = x[h]] *)
Definition shuffle (h : nat) : stmt frame := fun s =>
  d ← shuf !! h;
  v ← x s !! h;
  y ← store (xnext s) d v;
  Some (set_xnext s y).

(** [xnext[shufinv[h]] = x[h]] *)
Definition unshuffle (h : nat) : stmt frame := fun s =>
  d ← shufinv !! h;
  v ← x s !! h;
  y ← store (xnext s) d v;
  Some (set_xnext s y).

(** [x = xnext] *)
Definition x_gets_xnext : stmt frame := fun s =>
  Some (set_x s (xnext s)).

(** [dst[i] = x[2*i]<<4 | x[2*i+1]]; the shift is on a byte and drops the
    bits above the eighth. *)
Definition repack (i : nat) : stmt frame := fun s =>
  a ← x s !! (2 * i);
  b ← x s !! (2 * i + 1);
  d ← store (dst s) i (Z.lor (Z.shiftl a 4 mod 256) b);
  Some (set_dst s d).

Definition unpack_loop (n : nat) : list (stmt frame) :=
  for_lt 0 n (fun i => [unpack_hi i; unpack_lo i]).

Definition feistel_loop (i : nat) : list (stmt frame) :=
  for_lt 0 8 (fun j => [feistel i j]).

Definition repack_loop : list (stmt frame) :=
  for_lt 0 8 (fun i => [repack i]).

Definition Encrypt_round (i : nat) : list (stmt frame) :=
  feistel_loop i
  ++ [decl_xnext]
  ++ for_lt 0 16 (fun h => [shuffle h])
  ++ [x_gets_xnext].

Definition Decrypt_round (i : nat) : list (stmt frame) :=
  feistel_loop i
  ++ [decl_xnext]
  ++ for_lt 0 16 (fun h => [unshuffle h])
  ++ [x_gets_xnext].

(** Body of [Encrypt]; [n] is [len(src)]. *)
Definition Encrypt_body (n : nat) : list (stmt frame) :=
  unpack_loop n
  ++ for_le 1 35 Encrypt_round
  (* last round *)
  ++ feistel_loop 36
  ++ repack_loop.

(** Body of [Decrypt]; [n] is [len(src)]. *)
Definition Decrypt_body (n : nat) : list (stmt frame) :=
  unpack_loop n
  ++ for_down 36 2 Decrypt_round
  (* last round *)
  ++ feistel_loop 1
  ++ repack_loop.

(** Frame on entry: [x] is zero-initialised. *)
Definition enter (t : twineCipher) (dst0 src0 : list Z) : frame :=
  mk (rk t) src0 dst0 (replicate 16 0%Z) (replicate 16 0%Z).

End Block.

(** [func (t *twineCipher) Encrypt(dst, src []byte)]: the destination after
    the call, or [None] when the call panics. *)
Definition Encrypt (t : twineCipher) (dst src : list Z) : option (list Z) :=
  s ← exec (Block.Encrypt_body (length src)) (Block.enter t dst src);
  Some (Block.dst s).

(** [func (t *twineCipher) Decrypt(dst, src []byte)] *)
Definition Decrypt (t : twineCipher) (dst src : list Z) : option (list Z) :=
  s ← exec (Block.Decrypt_body (length src)) (Block.enter t dst src);
  Some (Block.dst s).

(** ** Key schedule *)

Module Sched.

(** Frame of [expandKeys80] and [expandKeys128]. *)
Record frame : Type := mk
  { t_rk : list (list Z);
    key : list Z;
    wk : list Z;          (* var wk [20]byte, resp. [32]byte *)
    con : Z;
    tmp0 : Z; tmp1 : Z; tmp2 : Z; tmp3 : Z }.

Definition set_rk (s : frame) (v : list (list Z)) : frame :=
  mk v (key s) (wk s) (con s) (tmp0 s) (tmp1 s) (tmp2 s) (tmp3 s).
Definition set_wk (s : frame) (v : list Z) : frame :=
  mk (t_rk s) (key s) v (con s) (tmp0 s) (tmp1 s) (tmp2 s) (tmp3 s).
Definition set_con (s : frame) (v : Z) : frame :=
  mk (t_rk s) (key s) (wk s) v (tmp0 s) (tmp1 s) (tmp2 s) (tmp3 s).
Definition set_tmps (s : frame) (v0 v1 v2 v3 : Z) : frame :=
  mk (t_rk s) (key s) (wk s) (con s) v0 v1 v2 v3.

(** [wk[2*i] = key[i] >> 4] *)
Definition unpack_hi (i : nat) : stmt frame := fun s =>
  b ← key s !! i;
  w ← store (wk s) (2 * i) (Z.shiftr b 4);
  Some (set_wk s w).

(** [wk[2*i+1] = key[i] & 0x0f] *)
Definition unpack_lo (i : nat) : stmt frame := fun s =>
  b ← key s !! i;
  w ← store (wk s) (2 * i + 1) (Z.land b 0x0f);
  Some (set_wk s w).

(** [t.rk[i][j] = wk[k]] *)
Definition tap (i j k : nat) : stmt frame := fun s =>
  v ← wk s !! k;
  row ← t_rk s !! i;
  row' ← store row j v;
  r ← store (t_rk s) i row';
  Some (set_rk s r).

(** [wk[a] ^= sbox[wk[b]]] *)
Definition mix (a b : nat) : stmt frame := fun s =>
  i ← wk s !! b;
  v ← sbox !! Z.to_nat i;
  o ← wk s !! a;
  w ← store (wk s) a (Z.lxor o v);
  Some (set_wk s w).

(** [con := roundconst[i]] *)
Definition load_con (i : nat) : stmt frame := fun s =>
  c ← roundconst !! i;
  Some (set_con s c).

(** [wk[7] ^= con >> 3] *)
Definition inject_hi : stmt frame := fun s =>
  o ← wk s !! 7;
  w ← store (wk s) 7 (Z.lxor o (Z.shiftr (con s) 3));
  Some (set_wk s w).

(** [wk[19] ^= con & 7] *)
Definition inject_lo : stmt frame := fun s =>
  o ← wk s !! 19;
  w ← store (wk s) 19 (Z.lxor o (Z.land (con s) 7));
  Some (set_wk s w).

(** [tmp0, tmp1, tmp2, tmp3 := wk[0], wk[1], wk[2], wk[3]] *)
Definition save_tmps : stmt frame := fun s =>
  v0 ← wk s !! 0;
  v1 ← wk s !! 1;
  v2 ← wk s !! 2;
  v3 ← wk s !! 3;
  Some (set_tmps s v0 v1 v2 v3).

(** [wk[a] = wk[b]] *)
Definition move (a b : nat) : stmt frame := fun s =>
  v ← wk s !! b;
  w ← store (wk s) a v;
  Some (set_wk s w).

(** [wk[a] = tmp] *)
Definition restore (a : nat) (tmp : frame -> Z) : stmt frame := fun s =>
  w ← store (wk s) a (tmp s);
  Some (set_wk s w).

Definition unpack_loop (n : nat) : list (stmt frame) :=
  for_lt 0 n (fun i => [unpack_hi i; unpack_lo i]).

(** The copy loop of the rotation, [for j := 0; j < n; j++]. *)
Definition shift_loop (n : nat) : list (stmt frame) :=
  for_lt 0 n (fun j =>
    let fourj := j * 4 in
    [ move fourj (fourj + 4);
      move (fourj + 1) (fourj + 5);
      move (fourj + 2) (fourj + 6);
      move (fourj + 3) (fourj + 7) ]).

Definition tap80 (i : nat) : list (stmt frame) :=
  [ tap i 0 1; tap i 1 3; tap i 2 4; tap i 3 6;
    tap i 4 13; tap i 5 14; tap i 6 15; tap i 7 16 ].

Definition round80 (i : nat) : list (stmt frame) :=
  tap80 i
  ++ [ mix 1 0; mix 4 16;
       load_con i;
       inject_hi; inject_lo;
       save_tmps ]
  ++ shift_loop 4
  ++ [ restore 16 tmp1; restore 17 tmp2; restore 18 tmp3; restore 19 tmp0 ].

(** Body of [expandKeys80]; [n] is [len(key)]. *)
Definition expandKeys80_body (n : nat) : list (stmt frame) :=
  unpack_loop n ++ for_le 1 35 round80 ++ tap80 36.

Definition tap128 (i : nat) : list (stmt frame) :=
  [ tap i 0 2; tap i 1 3; tap i 2 12; tap i 3 15;
    tap i 4 17; tap i 5 18; tap i 6 28; tap i 7 31 ].

Definition round128 (i : nat) : list (stmt frame) :=
  tap128 i
  ++ [ mix 1 0; mix 4 16; mix 23 30;
       load_con i;
       inject_hi; inject_lo;
       save_tmps ]
  ++ shift_loop 7
  ++ [ restore 28 tmp1; restore 29 tmp2; restore 30 tmp3; restore 31 tmp0 ].

(** Body of [expandKeys128]; [n] is [len(key)]. *)
Definition expandKeys128_body (n : nat) : list (stmt frame) :=
  unpack_loop n ++ for_le 1 35 round128 ++ tap128 36.

(** Frame on entry, with [wk] a zeroed array of [size] nibbles. *)
Definition enter (size : nat) (t : twineCipher) (key0 : list Z) : frame :=
  mk (rk t) key0 (replicate size 0%Z) 0%Z 0%Z 0%Z 0%Z 0%Z.

End Sched.

(** [func (t *twineCipher) expandKeys80(key []byte)]: the receiver after the
    call. *)
Definition expandKeys80 (t : twineCipher) (key : list Z) : option twineCipher :=
  s ← exec (Sched.expandKeys80_body (length key)) (Sched.enter 20 t key);
  Some (mkTwine (Sched.t_rk s)).

(** [func (t *twineCipher) expandKeys128(key []byte)] *)
Definition expandKeys128 (t : twineCipher) (key : list Z) : option twineCipher :=
  s ← exec (Sched.expandKeys128_body (length key)) (Sched.enter 32 t key);
  Some (mkTwine (Sched.t_rk s)).

(** [tw := &twineCipher{}] *)
Definition zero_twine : twineCipher := mkTwine (replicate 37 (replicate 8 0%Z)).

(** [func New(key []byte) (cipher.Block, error)]: the returned pair, [None]
    standing for [nil] in either component; the outer [option] is a panic. *)
Definition New (key : list Z) : option (option twineCipher * option KeySizeError) :=
  let l := length key in
  if negb (l =? 10)%nat && negb (l =? 16)%nat then
    Some (None, Some (Z.of_nat l))
  else
    let tw := zero_twine in
    tw' ← match l with
          | 10 => expandKeys80 tw key
          | 16 => expandKeys128 tw key
          | _ => Some tw
          end;
    Some (Some tw', None).

(** ** Known-answer vectors *)

Definition key80 : list Z :=
  [0x00; 0x11; 0x22; 0x33; 0x44; 0x55; 0x66; 0x77; 0x88; 0x99]%Z.
Definition key128 : list Z :=
  [0x00; 0x11; 0x22; 0x33; 0x44; 0x55; 0x66; 0x77; 0x88; 0x99; 0xAA; 0xBB; 0xCC; 0xDD; 0xEE; 0xFF]%Z.
Definition plain : list Z :=
  [0x01; 0x23; 0x45; 0x67; 0x89; 0xAB; 0xCD; 0xEF]%Z.

(** [c.Encrypt(dst, src)] on the instance returned by [New(key)]. *)
Definition New_then (f : twineCipher -> list Z -> list Z -> option (list Z))
    (key dst src : list Z) : option (list Z) :=
  r ← New key;
  match r with
  | (Some t, None) => f t dst src
  | _ => None
  end.


(** ** The algorithm in the words of the specification

    Total functions on lists: indexing outside a list yields 0 and updating
    outside it does nothing.  The S-box is the table read as a function. *)

Module Spec.

Definition S (v : Z) : Z := default 0%Z (sbox !! Z.to_nat v).
Definition RCON (i : nat) : Z := nth i roundconst 0%Z.

(** Nibble 2i is the high nibble of byte i, nibble 2i+1 the low one. *)
Definition unpack (bs : list Z) : list Z :=
  flat_map (fun b => [b / 16; b mod 16]%Z) bs.

(** Byte k has high nibble X[2k] and low nibble X[2k+1]. *)
Definition pack (X : list Z) : list Z :=
  (fun k : nat => (16 * nth (2 * k) X 0 + nth (2 * k + 1) X 0)%Z) <$> seq 0 8.

(** Feistel step: for j in 0..7, X[2j+1] ^= S[X[2j] ^ RK[i][j]]. *)
Definition feistel (RKi X : list Z) : list Z :=
  foldl (fun X j =>
           <[2 * j + 1 := Z.lxor (nth (2 * j + 1) X 0%Z) (S (Z.lxor (nth (2 * j) X 0%Z) (nth j RKi 0%Z)))]> X)
        X (seq 0 8).

(** Permutation: the block Y with Y[pi[h]] = X[h] for h in 0..15. *)
Definition permute (pi : list nat) (X : list Z) : list Z :=
  foldl (fun Y h => <[nth h pi 0 := nth h X 0%Z]> Y) (replicate 16 0%Z) (seq 0 16).

(** Round i of encryption: Feistel step, then the shuffle. *)
Definition enc_round (RK : list (list Z)) (X : list Z) (i : nat) : list Z :=
  permute shuf (feistel (nth i RK []) X).

(** Round i of decryption: Feistel step, then the inverse shuffle. *)
Definition dec_round (RK : list (list Z)) (X : list Z) (i : nat) : list Z :=
  permute shufinv (feistel (nth i RK []) X).

(** Rounds 1..35 with the shuffle, round 36 without. *)
Definition encrypt_nibbles (RK : list (list Z)) (X : list Z) : list Z :=
  feistel (nth 36 RK []) (foldl (enc_round RK) X (seq 1 35)).

Definition encrypt (RK : list (list Z)) (P : list Z) : list Z :=
  pack (encrypt_nibbles RK (unpack P)).

(** Rounds 36 down to 2 with the inverse shuffle, round 1 without. *)
Definition decrypt_nibbles (RK : list (list Z)) (X : list Z) : list Z :=
  feistel (nth 1 RK []) (foldl (dec_round RK) X (rev (seq 2 35))).

Definition decrypt (RK : list (list Z)) (C : list Z) : list Z :=
  pack (decrypt_nibbles RK (unpack C)).

(** 80-bit schedule: the tap positions. *)
Definition tap80 (WK : list Z) : list Z :=
  (fun p => nth p WK 0%Z) <$> [1; 3; 4; 6; 13; 14; 15; 16].

(** Rotation by four nibbles with the twist: the register shifted left by
    four positions, then t1, t2, t3, t0. *)
Definition rotate (WK : list Z) : list Z :=
  drop 4 WK ++ [nth 1 WK 0; nth 2 WK 0; nth 3 WK 0; nth 0 WK 0]%Z.

(** 80-bit schedule: the state update of round i. *)
Definition update80 (i : nat) (WK : list Z) : list Z :=
  let WK := <[1 := Z.lxor (nth 1 WK 0%Z) (S (nth 0 WK 0%Z))]> WK in
  let WK := <[4 := Z.lxor (nth 4 WK 0%Z) (S (nth 16 WK 0%Z))]> WK in
  let WK := <[7 := Z.lxor (nth 7 WK 0%Z) (Z.shiftr (RCON i) 3)]> WK in
  let WK := <[19 := Z.lxor (nth 19 WK 0%Z) (Z.land (RCON i) 7)]> WK in
  rotate WK.

(** The working register after n rounds. *)
Definition register80 (key : list Z) (n : nat) : list Z :=
  foldl (fun WK i => update80 i WK) (unpack key) (seq 1 n).

(** RK[i] is tapped before the update of round i. *)
Definition RK80 (key : list Z) (i : nat) : list Z :=
  tap80 (register80 key (i - 1)).

(** 128-bit schedule: the tap positions. *)
Definition tap128 (WK : list Z) : list Z :=
  (fun p => nth p WK 0%Z) <$> [2; 3; 12; 15; 17; 18; 28; 31].

(** 128-bit schedule: the state update of round i, with three non-linear
    mixes and the same constant injection and twisted rotation. *)
Definition update128 (i : nat) (WK : list Z) : list Z :=
  let WK := <[1 := Z.lxor (nth 1 WK 0%Z) (S (nth 0 WK 0%Z))]> WK in
  let WK := <[4 := Z.lxor (nth 4 WK 0%Z) (S (nth 16 WK 0%Z))]> WK in
  let WK := <[23 := Z.lxor (nth 23 WK 0%Z) (S (nth 30 WK 0%Z))]> WK in
  let WK := <[7 := Z.lxor (nth 7 WK 0%Z) (Z.shiftr (RCON i) 3)]> WK in
  let WK := <[19 := Z.lxor (nth 19 WK 0%Z) (Z.land (RCON i) 7)]> WK in
  rotate WK.

Definition register128 (key : list Z) (n : nat) : list Z :=
  foldl (fun WK i => update128 i WK) (unpack key) (seq 1 n).

Definition RK128 (key : list Z) (i : nat) : list Z :=
  tap128 (register128 key (i - 1)).

End Spec.

(** ** Predicates used in the statements *)

(** A statement keeps an invariant: it does not panic on a frame that
    satisfies it and re-establishes it. *)
Definition keeps {F : Type} (Inv : F -> Prop) (c : stmt F) : Prop :=
  forall s, Inv s -> exists s', c s = Some s' /\ Inv s'.

(** The sixteen nibble values. *)
Definition all_nibbles : list Z := Z.of_nat <$> seq 0 16.

Definition nibbleb (v : Z) : bool := (0 <=? v)%Z && (v <? 16)%Z.

(** Shape of the round-key array: 37 rows of 8 nibbles. *)
Definition row_ok (row : list Z) : Prop := length row = 8 /\ Forall nibble row.

Definition rk_ok (R : list (list Z)) : Prop := length R = 37 /\ Forall row_ok R.

(** The frame of a block transform holds the nibble block [X] and is
    otherwise as on entry. *)
Definition holds (R : list (list Z)) (src0 dst0 : list Z) (s : Block.frame) (X : list Z) : Prop :=
  Block.t_rk s = R /\ Block.src s = src0 /\ Block.dst s = dst0
  /\ Block.x s = X /\ length X = 16 /\ Forall nibble X.

(** The source padded with zero bytes to a full block. *)
Definition pad8 (src : list Z) : list Z := src ++ replicate (8 - length src) 0%Z.

(** Invariant of the key schedule: the round keys and the working register
    of [size] entries hold nibbles, as do the saved temporaries; the round
    constant has six bits. *)
Definition sched_inv (size : nat) (key0 : list Z) (s : Sched.frame) : Prop :=
  rk_ok (Sched.t_rk s) /\ Sched.key s = key0
  /\ length (Sched.wk s) = size /\ Forall nibble (Sched.wk s)
  /\ (0 <= Sched.con s < 64)%Z
  /\ nibble (Sched.tmp0 s) /\ nibble (Sched.tmp1 s)
  /\ nibble (Sched.tmp2 s) /\ nibble (Sched.tmp3 s).

(** A key the constructor accepts: ten or sixteen bytes. *)
Definition valid_key (key : list Z) : Prop :=
  (length key = 10 \/ length key = 16) /\ Forall is_byte key.

(** ** The block transform over shared memory

    The same two functions with [dst] and [src] as Go has them: slices, that
    is windows into backing memory which may overlap.  A slice is an offset
    into the memory and a length; indexing a slice at or beyond its length
    panics. *)

Record slice : Type := mkSlice { off : nat; len : nat }.

(** [s[i]] *)
Definition load (m : list Z) (sl : slice) (i : nat) : option Z :=
  if (i <? len sl)%nat then m !! (off sl + i) else None.

(** [s[i] = v] *)
Definition poke (m : list Z) (sl : slice) (i : nat) (v : Z) : option (list Z) :=
  if (i <? len sl)%nat then store m (off sl + i) v else None.

Module Shared.

Record frame : Type := mk
  { t_rk : list (list Z);
    mem : list Z;
    src : slice;
    dst : slice;
    x : list Z;           (* var x [16]byte *)
    xnext : list Z }.     (* var xnext [16]byte *)

Definition set_x (s : frame) (v : list Z) : frame :=
  mk (t_rk s) (mem s) (src s) (dst s) v (xnext s).
Definition set_xnext (s : frame) (v : list Z) : frame :=
  mk (t_rk s) (mem s) (src s) (dst s) (x s) v.
Definition set_mem (s : frame) (v : list Z) : frame :=
  mk (t_rk s) v (src s) (dst s) (x s) (xnext s).

(** [x[2*i] = src[i] >> 4] *)
Definition unpack_hi (i : nat) : stmt frame := fun s =>
  b ← load (mem s) (src s) i;
  x' ← store (x s) (2 * i) (Z.shiftr b 4);
  Some (set_x s x').

(** [x[2*i+1] = src[i] & 0x0f] *)
Definition unpack_lo (i : nat) : stmt frame := fun s =>
  b ← load (mem s) (src s) i;
  x' ← store (x s) (2 * i + 1) (Z.land b 0x0f);
  Some (set_x s x').

(** [x[2*j+1] ^= sbox[x[2*j]^t.rk[i][j]]] *)
Definition feistel (i j : nat) : stmt frame := fun s =>
  a ← x s !! (2 * j);
  row ← t_rk s !! i;
  k ← row !! j;
  v ← sbox !! Z.to_nat (Z.lxor a k);
  b ← x s !! (2 * j + 1);
  x' ← store (x s) (2 * j + 1) (Z.lxor b v);
  Some (set_x s x').

(** [var xnext [16]byte] *)
Definition decl_xnext : stmt frame := fun s =>
  Some (set_xnext s (replicate 16 0%Z)).

(** [xnext[shuf[h]] = x[h]] *)
Definition shuffle (h : nat) : stmt frame := fun s =>
  d ← shuf !! h;
  v ← x s !! h;
  y ← store (xnext s) d v;
  Some (set_xnext s y).

(** [xnext[shufinv[h]] = x[h]] *)
Definition unshuffle (h : nat) : stmt frame := fun s =>
  d ← shufinv !! h;
  v ← x s !! h;
  y ← store (xnext s) d v;
  Some (set_xnext s y).

(** [x = xnext] *)
Definition x_gets_xnext : stmt frame := fun s =>
  Some (set_x s (xnext s)).

(** [dst[i] = x[2*i]<<4 | x[2*i+1]] *)
Definition repack (i : nat) : stmt frame := fun s =>
  a ← x s !! (2 * i);
  b ← x s !! (2 * i + 1);
  m ← poke (mem s) (dst s) i (Z.lor (Z.shiftl a 4 mod 256) b);
  Some (set_mem s m).

Definition unpack_loop (n : nat) : list (stmt frame) :=
  for_lt 0 n (fun i => [unpack_hi i; unpack_lo i]).

Definition feistel_loop (i : nat) : list (stmt frame) :=
  for_lt 0 8 (fun j => [feistel i j]).

Definition repack_loop : list (stmt frame) :=
  for_lt 0 8 (fun i => [repack i]).

Definition Encrypt_round (i : nat) : list (stmt frame) :=
  feistel_loop i
  ++ [decl_xnext]
  ++ for_lt 0 16 (fun h => [shuffle h])
  ++ [x_gets_xnext].

Definition Decrypt_round (i : nat) : list (stmt frame) :=
  feistel_loop i
  ++ [decl_xnext]
  ++ for_lt 0 16 (fun h => [unshuffle h])
  ++ [x_gets_xnext].

(** Body of [Encrypt]; [n] is [len(src)]. *)
Definition Encrypt_body (n : nat) : list (stmt frame) :=
  unpack_loop n
  ++ for_le 1 35 Encrypt_round
  (* last round *)
  ++ feistel_loop 36
  ++ repack_loop.

(** Body of [Decrypt]; [n] is [len(src)]. *)
Definition Decrypt_body (n : nat) : list (stmt frame) :=
  unpack_loop n
  ++ for_down 36 2 Decrypt_round
  (* last round *)
  ++ feistel_loop 1
  ++ repack_loop.

Definition enter (t : twineCipher) (m : list Z) (dst0 src0 : slice) : frame :=
  mk (rk t) m src0 dst0 (replicate 16 0%Z) (replicate 16 0%Z).

(** [t.Encrypt(dst, src)] on memory [m]: the memory after the call. *)
Definition Encrypt (t : twineCipher) (m : list Z) (dst0 src0 : slice) : option (list Z) :=
  s ← exec (Encrypt_body (len src0)) (enter t m dst0 src0);
  Some (mem s).

(** [t.Decrypt(dst, src)] on memory [m]: the memory after the call. *)
Definition Decrypt (t : twineCipher) (m : list Z) (dst0 src0 : slice) : option (list Z) :=
  s ← exec (Decrypt_body (len src0)) (enter t m dst0 src0);
  Some (mem s).

End Shared.

(** The bytes a slice shows. *)
Definition view (m : list Z) (sl : slice) : list Z := take (len sl) (drop (off sl) m).

(** Memory [m] with the bytes [d] written at offset [o]. *)
Definition splice (m : list Z) (o : nat) (d : list Z) : list Z :=
  take o m ++ d ++ drop (o + length d) m.

(** Two statements that take related frames to related frames, or both
    panic. *)
Definition lockstep {A B : Type} (R : A -> B -> Prop) (ca : stmt A) (cb : stmt B) : Prop :=
  forall a b, R a b -> option_Forall2 R (ca a) (cb b).

(** A frame over shared memory and a frame with separate source and
    destination that agree on the cipher state; [P] relates the memory and the
    separate destination. *)
Definition sim (m0 : list Z) (srcS dstS : slice) (P : list Z -> list Z -> Prop)
    (sh : Shared.frame) (sb : Block.frame) : Prop :=
  Shared.t_rk sh = Block.t_rk sb /\ Shared.x sh = Block.x sb
  /\ Shared.xnext sh = Block.xnext sb
  /\ Shared.src sh = srcS /\ Shared.dst sh = dstS
  /\ Block.src sb = view m0 srcS
  /\ P (Shared.mem sh) (Block.dst sb).

(** Before the first write to the destination. *)
Definition untouched (m0 : list Z) (dstS : slice) (m d : list Z) : Prop :=
  m = m0 /\ d = view m0 dstS.

(** Once writes to the destination have begun. *)
Definition written (m0 : list Z) (dstS : slice) (m d : list Z) : Prop :=
  m = splice m0 (off dstS) d /\ length d = len dstS.

(** The frame of a block transform with row 0 of the round keys replaced. *)
Definition poke_row0 (r0 : list Z) (s : Block.frame) : Block.frame :=
  Block.mk (<[0 := r0]> (Block.t_rk s)) (Block.src s) (Block.dst s) (Block.x s) (Block.xnext s).

(** A statement that behaves the same whatever row 0 holds. *)
Definition ignores_row0 (c : stmt Block.frame) : Prop :=
  forall r0 s, c (poke_row0 r0 s) = poke_row0 r0 <$> c s.

(** Invariant of the block transforms: [x] and [xnext] are sixteen nibbles,
    the destination has room for a block. *)
Definition block_inv (R : list (list Z)) (src0 : list Z) (s : Block.frame) : Prop :=
  Block.t_rk s = R /\ Block.src s = src0 /\ 8 <= length (Block.dst s)
  /\ length (Block.x s) = 16 /\ Forall nibble (Block.x s)
  /\ length (Block.xnext s) = 16 /\ Forall nibble (Block.xnext s).

(** ** Execution of statement lists *)

Section Exec.
Context {F : Type}.
Implicit Types (p q : list (stmt F)) (s : F).

Lemma exec_app p q s : exec (p ++ q) s = exec p s ≫= exec q.
Proof.
  revert s; induction p as [|c p IH]; intros s; cbn; [reflexivity|].
  destruct (c s); cbn; auto.
Qed.

Lemma exec_step c p s s' r : c s = Some s' -> exec p s' = r -> exec (c :: p) s = r.
Proof. intros H <-; cbn; rewrite H; reflexivity. Qed.

Lemma exec_seq p q s s' : exec p s = Some s' -> exec (p ++ q) s = exec q s'.
Proof. intros H; rewrite exec_app, H; reflexivity. Qed.

(** A loop whose body refines a pure step [g] under a coupling [R]. *)
Lemma exec_flat_map {A : Type} (R : F -> A -> Prop) (body : nat -> list (stmt F))
    (g : A -> nat -> A) (idx : list nat) :
  (forall i s a, In i idx -> R s a -> exists s', exec (body i) s = Some s' /\ R s' (g a i)) ->
  forall s a, R s a ->
  exists s', exec (flat_map body idx) s = Some s' /\ R s' (foldl g a idx).
Proof.
  induction idx as [|i idx IH]; intros Hb s a HR; cbn.
  - eauto.
  - destruct (Hb i s a) as (s1 & E1 & R1); [now left | assumption |].
    destruct (IH (fun j s a Hj => Hb j s a (or_intror Hj)) s1 (g a i) R1) as (s2 & E2 & R2).
    exists s2; split; [|assumption].
    rewrite (exec_seq _ _ _ _ E1); assumption.
Qed.


(** Statements that keep an invariant keep it after every prefix. *)
Lemma exec_prefix (Inv : F -> Prop) p :
  Forall (keeps Inv) p ->
  forall n s, Inv s -> exists s', exec (take n p) s = Some s' /\ Inv s'.
Proof.
  induction 1 as [|c p Hc _ IH]; intros n s Hs.
  - rewrite take_nil; cbn; eauto.
  - destruct n as [|n]; cbn; [eauto|].
    destruct (Hc s Hs) as (s1 & E1 & I1); rewrite E1; auto.
Qed.

Lemma exec_keeps (Inv : F -> Prop) p :
  Forall (keeps Inv) p ->
  forall s, Inv s -> exists s', exec p s = Some s' /\ Inv s'.
Proof.
  intros Hp s Hs.
  destruct (exec_prefix Inv p Hp (length p) s Hs) as (s' & E & I).
  rewrite firstn_all in E; eauto.
Qed.
End Exec.

(** ** Arithmetic of bytes and nibbles *)


Lemma nibble_in v : nibble v -> In v all_nibbles.
Proof.
  intros [H0 H1]; unfold all_nibbles.
  replace v with (Z.of_nat (Z.to_nat v)) by lia.
  apply in_map, in_seq; lia.
Qed.

Lemma nibble_forall (P : Z -> bool) :
  forallb P all_nibbles = true -> forall v, nibble v -> P v = true.
Proof.
  intros H v Hv; rewrite forallb_forall in H; apply H, nibble_in, Hv.
Qed.


Lemma nibbleb_spec v : nibbleb v = true <-> nibble v.
Proof. unfold nibbleb, nibble; rewrite andb_true_iff, Z.leb_le, Z.ltb_lt; tauto. Qed.

Lemma nibble_lxor a b : nibble a -> nibble b -> nibble (Z.lxor a b).
Proof.
  intros Ha Hb; apply nibbleb_spec.
  revert b Hb; apply nibble_forall.
  revert a Ha; apply (nibble_forall (fun a => forallb (fun b => nibbleb (Z.lxor a b)) all_nibbles)).
  vm_compute; reflexivity.
Qed.

Lemma lxor_cancel a b : Z.lxor (Z.lxor a b) b = a.
Proof. rewrite Z.lxor_assoc, Z.lxor_nilpotent, Z.lxor_0_r; reflexivity. Qed.

Lemma sbox_nibbles : Forall nibble sbox.
Proof. repeat constructor; unfold nibble; lia. Qed.

Lemma nibble_S v : nibble (Spec.S v).
Proof.
  unfold Spec.S; destruct (sbox !! Z.to_nat v) as [w|] eqn:E; cbn.
  - eapply Forall_lookup_1; [apply sbox_nibbles | exact E].
  - unfold nibble; lia.
Qed.

Lemma sbox_lookup v : nibble v -> sbox !! Z.to_nat v = Some (Spec.S v).
Proof.
  intros [H0 H1]; unfold Spec.S.
  destruct (lookup_lt_is_Some_2 sbox (Z.to_nat v)) as [w E]; [cbn; lia|].
  rewrite E; reflexivity.
Qed.

Lemma roundconst_lookup i : i <= 36 -> roundconst !! i = Some (Spec.RCON i).
Proof.
  intros H; unfold Spec.RCON.
  destruct (lookup_lt_is_Some_2 roundconst i) as [c E]; [cbn; lia|].
  rewrite nth_lookup, E; reflexivity.
Qed.

Lemma roundconst_small : Forall (fun c => 0 <= c < 64)%Z roundconst.
Proof. repeat constructor; lia. Qed.

Lemma RCON_small i : (0 <= Spec.RCON i < 64)%Z.
Proof.
  unfold Spec.RCON; rewrite nth_lookup.
  destruct (roundconst !! i) as [c|] eqn:E; cbn; [|lia].
  apply (Forall_lookup_1 _ _ i _ roundconst_small E).
Qed.

Lemma byte_hi b : is_byte b -> Z.shiftr b 4 = (b / 16)%Z /\ nibble (b / 16).
Proof.
  intros [H0 H1]; split; [apply (Z.shiftr_div_pow2 b 4); lia|].
  unfold nibble; split; [apply Z.div_pos; lia | apply Z.div_lt_upper_bound; lia].
Qed.

Lemma byte_lo b : is_byte b -> Z.land b 0x0f = (b mod 16)%Z /\ nibble (b mod 16).
Proof.
  intros [H0 H1]; split; [apply (Z.land_ones b 4); lia|].
  unfold nibble; apply Z.mod_pos_bound; lia.
Qed.

Lemma nibble_pack a b :
  nibble a -> nibble b -> Z.lor (Z.shiftl a 4 mod 256) b = (16 * a + b)%Z.
Proof.
  intros Ha Hb; apply Z.eqb_eq.
  revert b Hb; apply nibble_forall.
  revert a Ha;
    apply (nibble_forall (fun a => forallb (fun b =>
             Z.lor (Z.shiftl a 4 mod 256) b =? 16 * a + b)%Z all_nibbles)).
  vm_compute; reflexivity.
Qed.

Lemma nibble_con_hi c : (0 <= c < 64)%Z -> nibble (Z.shiftr c 3).
Proof.
  intros [H0 H1]; rewrite (Z.shiftr_div_pow2 c 3) by lia.
  unfold nibble; split; [apply Z.div_pos; lia | apply Z.div_lt_upper_bound; lia].
Qed.

Lemma nibble_con_lo c : nibble (Z.land c 7).
Proof.
  change 7%Z with (Z.ones 3); rewrite (Z.land_ones c 3) by lia.
  unfold nibble; pose proof (Z.mod_pos_bound c (2 ^ 3)); lia.
Qed.

Lemma nibble_high_bits v : nibble v -> Z.shiftr v 4 = 0%Z.
Proof.
  intros [H0 H1]; rewrite (Z.shiftr_div_pow2 v 4) by lia.
  apply Z.div_small; lia.
Qed.

Lemma nibble_0 : nibble 0.
Proof. unfold nibble; lia. Qed.

Create HintDb nib.
#[local] Hint Resolve nibble_lxor nibble_S nibble_0 nibble_con_lo : nib.

(** ** Arrays *)

Lemma store_lt {A : Type} (l : list A) i v : i < length l -> store l i v = Some (<[i:=v]> l).
Proof. intros H; unfold store; apply Nat.ltb_lt in H; rewrite H; reflexivity. Qed.

(** A list of known length, as its elements. *)
Ltac explode l :=
  repeat match goal with
         | H : length l = S _ |- _ =>
             destruct l as [|? l]; [discriminate H|];
             cbn [length] in H; apply Nat.succ_inj in H
         end;
  match goal with
  | H : length l = 0 |- _ => destruct l; [clear H | discriminate H]
  end.

Ltac split_Forall :=
  repeat match goal with
         | H : Forall _ (_ :: _) |- _ =>
             pose proof (Forall_inv H); apply Forall_inv_tail in H
         | H : Forall _ [] |- _ => clear H
         end.

Ltac nibs :=
  repeat (apply List.Forall_cons; [solve [auto with nib]|]); apply List.Forall_nil.

Ltac conjs := repeat match goal with |- _ /\ _ => split end.

#[local] Arguments Z.lxor : simpl never.
#[local] Arguments Z.lor : simpl never.
#[local] Arguments Z.land : simpl never.
#[local] Arguments Z.shiftr : simpl never.
#[local] Arguments Z.shiftl : simpl never.
#[local] Arguments Z.modulo : simpl never.
#[local] Arguments Z.div : simpl never.
#[local] Arguments Z.mul : simpl never.
#[local] Arguments Z.add : simpl never.
#[local] Arguments Spec.S : simpl never.
#[local] Arguments Spec.RCON : simpl never.


Lemma rk_ok_row R i :
  rk_ok R -> i <= 36 -> exists row, R !! i = Some row /\ nth i R [] = row /\ row_ok row.
Proof.
  intros [HL HR] Hi.
  destruct (lookup_lt_is_Some_2 R i) as [row E]; [lia|].
  exists row; split; [assumption|]; split.
  - rewrite nth_lookup, E; reflexivity.
  - eapply Forall_lookup_1; eassumption.
Qed.

(** ** The block transform refines the specification's rounds *)

Ltac block_step tac :=
  eapply exec_step;
  [ cbv beta delta [Block.feistel Block.shuffle Block.unshuffle Block.decl_xnext
                    Block.x_gets_xnext Block.repack Block.unpack_hi Block.unpack_lo];
    cbn; tac;
    cbv beta iota delta [Block.set_x Block.set_xnext Block.set_dst
                         Block.t_rk Block.src Block.dst Block.x Block.xnext];
    reflexivity |].

Ltac open_frame s :=
  destruct s as [? ? ? ? ?];
  cbn [Block.t_rk Block.src Block.dst Block.x Block.xnext] in *; subst.

Section BlockRefinement.
Variables (R : list (list Z)) (src0 dst0 : list Z).
Hypothesis HR : rk_ok R.


Lemma feistel_loop_ok i s X :
  i <= 36 -> holds R src0 dst0 s X ->
  exists s', exec (Block.feistel_loop i) s = Some s'
             /\ holds R src0 dst0 s' (Spec.feistel (nth i R []) X).
Proof.
  intros Hi (Hrk & Hsrc & Hdst & Hx & HL & HN).
  destruct (rk_ok_row R i HR Hi) as (row & Erow & Etot & HrowL & HrowN).
  rewrite Etot; clear Etot.
  open_frame s; explode X; explode row; split_Forall.
  unfold Block.feistel_loop, for_lt; cbn [flat_map seq Nat.sub app].
  eexists; split.
  { do 8 block_step ltac:(rewrite Erow; cbn; rewrite sbox_lookup by auto with nib; cbn).
    reflexivity. }
  unfold holds; cbn; conjs; first [reflexivity | nibs].
Qed.

Lemma shuffle_loop_ok s X :
  holds R src0 dst0 s X ->
  exists s', exec ([Block.decl_xnext] ++ for_lt 0 16 (fun h => [Block.shuffle h])
                     ++ [Block.x_gets_xnext]) s = Some s'
             /\ holds R src0 dst0 s' (Spec.permute shuf X).
Proof.
  intros (Hrk & Hsrc & Hdst & Hx & HL & HN).
  open_frame s; explode X; split_Forall.
  unfold for_lt; cbn [flat_map seq Nat.sub app].
  eexists; split.
  { do 18 block_step idtac. reflexivity. }
  unfold holds; cbn; conjs; first [reflexivity | nibs].
Qed.

Lemma unshuffle_loop_ok s X :
  holds R src0 dst0 s X ->
  exists s', exec ([Block.decl_xnext] ++ for_lt 0 16 (fun h => [Block.unshuffle h])
                     ++ [Block.x_gets_xnext]) s = Some s'
             /\ holds R src0 dst0 s' (Spec.permute shufinv X).
Proof.
  intros (Hrk & Hsrc & Hdst & Hx & HL & HN).
  open_frame s; explode X; split_Forall.
  unfold for_lt; cbn [flat_map seq Nat.sub app].
  eexists; split.
  { do 18 block_step idtac. reflexivity. }
  unfold holds; cbn; conjs; first [reflexivity | nibs].
Qed.

Lemma Encrypt_round_ok i s X :
  i <= 36 -> holds R src0 dst0 s X ->
  exists s', exec (Block.Encrypt_round i) s = Some s'
             /\ holds R src0 dst0 s' (Spec.permute shuf (Spec.feistel (nth i R []) X)).
Proof.
  intros Hi H.
  destruct (feistel_loop_ok i s X Hi H) as (s1 & E1 & H1).
  destruct (shuffle_loop_ok s1 _ H1) as (s2 & E2 & H2).
  exists s2; split; [|assumption].
  unfold Block.Encrypt_round; rewrite (exec_seq _ _ _ _ E1); assumption.
Qed.

Lemma Decrypt_round_ok i s X :
  i <= 36 -> holds R src0 dst0 s X ->
  exists s', exec (Block.Decrypt_round i) s = Some s'
             /\ holds R src0 dst0 s' (Spec.permute shufinv (Spec.feistel (nth i R []) X)).
Proof.
  intros Hi H.
  destruct (feistel_loop_ok i s X Hi H) as (s1 & E1 & H1).
  destruct (unshuffle_loop_ok s1 _ H1) as (s2 & E2 & H2).
  exists s2; split; [|assumption].
  unfold Block.Decrypt_round; rewrite (exec_seq _ _ _ _ E1); assumption.
Qed.

(** All rounds of [Encrypt]. *)
Lemma Encrypt_rounds_ok s X :
  holds R src0 dst0 s X ->
  exists s', exec (for_le 1 35 Block.Encrypt_round ++ Block.feistel_loop 36) s = Some s'
             /\ holds R src0 dst0 s' (Spec.encrypt_nibbles R X).
Proof.
  intros H.
  destruct (exec_flat_map (holds R src0 dst0) Block.Encrypt_round
              (Spec.enc_round R) (seq 1 35))
    with (s := s) (a := X) as (s1 & E1 & H1); [|assumption|].
  { intros i s0 a Hi%in_seq; apply Encrypt_round_ok; lia. }
  destruct (feistel_loop_ok 36 s1 _ (Nat.le_refl _) H1) as (s2 & E2 & H2).
  exists s2; split; [|exact H2].
  rewrite (exec_seq _ _ _ _ E1); assumption.
Qed.

(** All rounds of [Decrypt]. *)
Lemma Decrypt_rounds_ok s X :
  holds R src0 dst0 s X ->
  exists s', exec (for_down 36 2 Block.Decrypt_round ++ Block.feistel_loop 1) s = Some s'
             /\ holds R src0 dst0 s' (Spec.decrypt_nibbles R X).
Proof.
  intros H.
  destruct (exec_flat_map (holds R src0 dst0) Block.Decrypt_round
              (Spec.dec_round R) (rev (seq 2 35)))
    with (s := s) (a := X) as (s1 & E1 & H1); [|assumption|].
  { intros i s0 a Hi%in_rev%in_seq; apply Decrypt_round_ok; lia. }
  destruct (feistel_loop_ok 1 s1 _ ltac:(lia) H1) as (s2 & E2 & H2).
  exists s2; split; [|exact H2].
  rewrite (exec_seq _ _ _ _ E1); assumption.
Qed.
End BlockRefinement.


Ltac bytes_to_nibbles :=
  repeat match goal with
         | H : is_byte ?b |- _ =>
             rewrite ?(proj1 (byte_hi b H)), ?(proj1 (byte_lo b H));
             pose proof (proj2 (byte_hi b H)); pose proof (proj2 (byte_lo b H));
             clear H
         end.

Lemma unpack_loop_ok t dst src :
  length src <= 8 -> Forall is_byte src ->
  exists s', exec (Block.unpack_loop (length src)) (Block.enter t dst src) = Some s'
             /\ holds (rk t) src dst s' (Spec.unpack (pad8 src)).
Proof.
  intros HL HB.
  do 9 (destruct src as [|? src];
        [ split_Forall; unfold Block.unpack_loop, for_lt, Block.enter;
          cbn [length flat_map seq Nat.sub app];
          eexists; split;
          [ repeat block_step idtac; reflexivity
          | unfold holds, pad8; cbn; bytes_to_nibbles;
            change (0 / 16)%Z with 0%Z; change (0 mod 16)%Z with 0%Z;
            conjs; first [reflexivity | nibs] ]
        | ]).
  cbn in HL; lia.
Qed.

Lemma repack_loop_ok R src dst s X :
  8 <= length dst -> holds R src dst s X ->
  exists s', exec Block.repack_loop s = Some s'
             /\ Block.t_rk s' = R /\ Block.src s' = src
             /\ Block.dst s' = Spec.pack X ++ drop 8 dst.
Proof.
  intros HD (Hrk & Hsrc & Hdst & Hx & HL & HN).
  open_frame s; explode X; split_Forall.
  do 8 (destruct dst as [|? dst]; [cbn in HD; lia|]).
  unfold Block.repack_loop, for_lt; cbn [flat_map seq Nat.sub app].
  eexists; split.
  { do 8 block_step idtac. reflexivity. }
  cbn; rewrite !nibble_pack by assumption.
  conjs; reflexivity.
Qed.

(** [Encrypt] and [Decrypt] on a source of at most eight bytes: the run ends,
    leaves the receiver and the source as they were, and overwrites the first
    eight bytes of the destination with the specification's block. *)
Lemma Encrypt_body_ok t dst src :
  rk_ok (rk t) -> length src <= 8 -> Forall is_byte src -> 8 <= length dst ->
  exists s', exec (Block.Encrypt_body (length src)) (Block.enter t dst src) = Some s'
             /\ Block.t_rk s' = rk t /\ Block.src s' = src
             /\ Block.dst s' = Spec.encrypt (rk t) (pad8 src) ++ drop 8 dst.
Proof.
  intros HR HL HB HD.
  destruct (unpack_loop_ok t dst src HL HB) as (s1 & E1 & H1).
  destruct (Encrypt_rounds_ok (rk t) src dst HR s1 _ H1) as (s2 & E2 & H2).
  destruct (repack_loop_ok _ _ _ s2 _ HD H2) as (s3 & E3 & H3).
  exists s3; split; [|exact H3].
  unfold Block.Encrypt_body.
  rewrite (exec_seq _ _ _ _ E1), app_assoc, (exec_seq _ _ _ _ E2); exact E3.
Qed.

Lemma Decrypt_body_ok t dst src :
  rk_ok (rk t) -> length src <= 8 -> Forall is_byte src -> 8 <= length dst ->
  exists s', exec (Block.Decrypt_body (length src)) (Block.enter t dst src) = Some s'
             /\ Block.t_rk s' = rk t /\ Block.src s' = src
             /\ Block.dst s' = Spec.decrypt (rk t) (pad8 src) ++ drop 8 dst.
Proof.
  intros HR HL HB HD.
  destruct (unpack_loop_ok t dst src HL HB) as (s1 & E1 & H1).
  destruct (Decrypt_rounds_ok (rk t) src dst HR s1 _ H1) as (s2 & E2 & H2).
  destruct (repack_loop_ok _ _ _ s2 _ HD H2) as (s3 & E3 & H3).
  exists s3; split; [|exact H3].
  unfold Block.Decrypt_body.
  rewrite (exec_seq _ _ _ _ E1), app_assoc, (exec_seq _ _ _ _ E2); exact E3.
Qed.

Lemma Encrypt_ok t dst src :
  rk_ok (rk t) -> length src <= 8 -> Forall is_byte src -> 8 <= length dst ->
  Encrypt t dst src = Some (Spec.encrypt (rk t) (pad8 src) ++ drop 8 dst).
Proof.
  intros HR HL HB HD.
  destruct (Encrypt_body_ok t dst src HR HL HB HD) as (s & E & _ & _ & Hd).
  unfold Encrypt; rewrite E; cbv [mbind option_bind]; rewrite Hd; reflexivity.
Qed.

Lemma Decrypt_ok t dst src :
  rk_ok (rk t) -> length src <= 8 -> Forall is_byte src -> 8 <= length dst ->
  Decrypt t dst src = Some (Spec.decrypt (rk t) (pad8 src) ++ drop 8 dst).
Proof.
  intros HR HL HB HD.
  destruct (Decrypt_body_ok t dst src HR HL HB HD) as (s & E & _ & _ & Hd).
  unfold Decrypt; rewrite E; cbv [mbind option_bind]; rewrite Hd; reflexivity.
Qed.

Lemma pad8_full src : length src = 8 -> pad8 src = src.
Proof. intros H; unfold pad8; rewrite H; cbn; apply app_nil_r. Qed.

(** ** The specification's decryption inverts its encryption *)

Section Inverse.
Variable RK : list (list Z).

Local Abbreviation F i X := (Spec.feistel (nth i RK []) X).
Local Abbreviation E := (Spec.enc_round RK).
Local Abbreviation D := (Spec.dec_round RK).

Lemma feistel_length K X : length X = 16 -> length (Spec.feistel K X) = 16.
Proof. intros H; explode X; reflexivity. Qed.

Lemma feistel_nibbles K X :
  length X = 16 -> Forall nibble X -> Forall nibble (Spec.feistel K X).
Proof. intros H HN; explode X; split_Forall; cbn; nibs. Qed.

Lemma feistel_involutive K X :
  length X = 16 -> Spec.feistel K (Spec.feistel K X) = X.
Proof. intros H; explode X; cbn; rewrite !lxor_cancel; reflexivity. Qed.

Lemma permute_length pi X : length (Spec.permute pi X) = 16.
Proof.
  unfold Spec.permute.
  generalize (seq 0 16); intros idx.
  assert (H : length (replicate 16 0%Z) = 16) by reflexivity.
  revert H; generalize (replicate 16 0%Z).
  induction idx as [|h idx IH]; intros Y HY; cbn; [assumption|].
  apply IH; rewrite length_insert; assumption.
Qed.

Lemma permute_nibbles pi X :
  Forall nibble X -> Forall nibble (Spec.permute pi X).
Proof.
  intros HX; unfold Spec.permute.
  generalize (seq 0 16); intros idx.
  assert (H : Forall nibble (replicate 16 0%Z)) by (cbn; nibs).
  revert H; generalize (replicate 16 0%Z).
  induction idx as [|h idx IH]; intros Y HY; cbn; [assumption|].
  apply IH, Forall_insert; [assumption|].
  rewrite (nth_lookup X).
  destruct (X !! h) as [v|] eqn:Ev; cbn; [|apply nibble_0].
  apply (Forall_lookup_1 _ _ h _ HX Ev).
Qed.

Lemma unshuffle_shuffle X :
  length X = 16 -> Spec.permute shufinv (Spec.permute shuf X) = X.
Proof. intros H; explode X; reflexivity. Qed.

Lemma shuffle_unshuffle X :
  length X = 16 -> Spec.permute shuf (Spec.permute shufinv X) = X.
Proof. intros H; explode X; reflexivity. Qed.

Lemma foldl_snoc {A B : Type} (f : A -> B -> A) a l b :
  foldl f a (l ++ [b]) = f (foldl f a l) b.
Proof. rewrite foldl_app; reflexivity. Qed.

Lemma E_rounds_length n X : length X = 16 -> length (foldl E X (seq 1 n)) = 16.
Proof.
  intros H; induction n as [|n IH]; [assumption|].
  rewrite seq_S, foldl_snoc; apply permute_length.
Qed.

(** Undoing the first [n] encryption rounds. *)
Lemma D_after_E n X :
  length X = 16 ->
  foldl D (F (S n) (foldl E X (seq 1 n))) (rev (seq 2 n)) = F 1 X.
Proof.
  intros H; induction n as [|n IH]; [reflexivity|].
  rewrite (seq_S n 2), rev_app_distr, (seq_S n 1), foldl_snoc; cbn [rev app foldl].
  rewrite <- IH; f_equal.
  pose proof (E_rounds_length n X H) as HL.
  change (2 + n) with (S (S n)); change (1 + n) with (S n).
  unfold Spec.dec_round, Spec.enc_round in *.
  rewrite feistel_involutive by apply permute_length.
  apply unshuffle_shuffle, feistel_length, HL.
Qed.

(** Redoing the last [n] decryption rounds. *)
Lemma E_after_D n Y :
  length Y = 16 ->
  foldl E (F 1 (foldl D Y (rev (seq 2 n)))) (seq 1 n) = F (S n) Y.
Proof.
  revert Y; induction n as [|n IH]; intros Y H; [reflexivity|].
  rewrite (seq_S n 2), rev_app_distr, (seq_S n 1), foldl_snoc; cbn [rev app foldl].
  rewrite IH by apply permute_length.
  change (2 + n) with (S (S n)); change (1 + n) with (S n).
  unfold Spec.dec_round, Spec.enc_round.
  rewrite feistel_involutive by apply permute_length.
  apply shuffle_unshuffle, feistel_length, H.
Qed.

Lemma decrypt_encrypt_nibbles X :
  length X = 16 -> Spec.decrypt_nibbles RK (Spec.encrypt_nibbles RK X) = X.
Proof.
  intros H.
  change (F 1 (foldl D (F 36 (foldl E X (seq 1 35))) (rev (seq 2 35))) = X).
  rewrite (D_after_E 35 X H); apply feistel_involutive, H.
Qed.

Lemma encrypt_decrypt_nibbles Y :
  length Y = 16 -> Spec.encrypt_nibbles RK (Spec.decrypt_nibbles RK Y) = Y.
Proof.
  intros H.
  change (F 36 (foldl E (F 1 (foldl D Y (rev (seq 2 35)))) (seq 1 35)) = Y).
  rewrite (E_after_D 35 Y H); apply feistel_involutive, H.
Qed.

Lemma encrypt_nibbles_ok X :
  length X = 16 -> Forall nibble X ->
  length (Spec.encrypt_nibbles RK X) = 16 /\ Forall nibble (Spec.encrypt_nibbles RK X).
Proof.
  intros H HN.
  change (Spec.encrypt_nibbles RK X) with (F 36 (foldl E X (seq 1 35))).
  assert (HI : length (foldl E X (seq 1 35)) = 16 /\ Forall nibble (foldl E X (seq 1 35))).
  { generalize 35; intros n; induction n as [|n [IL IN]]; [auto|].
    rewrite seq_S, foldl_snoc; split; [apply permute_length|].
    apply permute_nibbles, feistel_nibbles; assumption. }
  destruct HI; split; [apply feistel_length | apply feistel_nibbles]; assumption.
Qed.

Lemma decrypt_nibbles_ok X :
  length X = 16 -> Forall nibble X ->
  length (Spec.decrypt_nibbles RK X) = 16 /\ Forall nibble (Spec.decrypt_nibbles RK X).
Proof.
  intros H HN.
  change (Spec.decrypt_nibbles RK X) with (F 1 (foldl D X (rev (seq 2 35)))).
  assert (HI : length (foldl D X (rev (seq 2 35))) = 16
               /\ Forall nibble (foldl D X (rev (seq 2 35)))).
  { generalize (rev (seq 2 35)); intros idx; revert X H HN.
    induction idx as [|i idx IH]; intros X H HN; [auto|].
    cbn [foldl]; apply IH; [apply permute_length|].
    apply permute_nibbles, feistel_nibbles; assumption. }
  destruct HI; split; [apply feistel_length | apply feistel_nibbles]; assumption.
Qed.
End Inverse.

Lemma unpack_ok P :
  length P = 8 -> Forall is_byte P ->
  length (Spec.unpack P) = 16 /\ Forall nibble (Spec.unpack P).
Proof.
  intros H HB; explode P; split_Forall; cbn; bytes_to_nibbles; split; [reflexivity | nibs].
Qed.

Lemma pack_unpack P :
  length P = 8 -> Forall is_byte P -> Spec.pack (Spec.unpack P) = P.
Proof.
  intros H HB; explode P; split_Forall; cbn.
  repeat match goal with
         | H : is_byte ?b |- _ => rewrite <- (Z.div_mod b 16) by lia; clear H
         end.
  reflexivity.
Qed.

Lemma nibble_pair a b :
  nibble a -> nibble b ->
  ((16 * a + b) / 16 = a /\ (16 * a + b) mod 16 = b /\ is_byte (16 * a + b))%Z.
Proof.
  unfold nibble, is_byte; intros Ha Hb.
  assert (E : (16 * a + b = b + a * 16)%Z) by lia; rewrite E.
  rewrite Z.div_add, Z.mod_add, Z.div_small, Z.mod_small by lia; lia.
Qed.

Lemma unpack_pack X :
  length X = 16 -> Forall nibble X -> Spec.unpack (Spec.pack X) = X.
Proof.
  intros H HN; explode X; split_Forall; cbn.
  repeat match goal with
         | |- context [(16 * ?a + ?b)%Z] =>
             lazymatch goal with
             | Ha : nibble a, Hb : nibble b |- _ =>
                 destruct (nibble_pair a b Ha Hb) as (-> & -> & _); clear Ha Hb
             end
         end.
  reflexivity.
Qed.

Lemma pack_ok X :
  length X = 16 -> Forall nibble X ->
  length (Spec.pack X) = 8 /\ Forall is_byte (Spec.pack X).
Proof.
  intros H HN; explode X; split_Forall; cbn; split; [reflexivity|].
  repeat (apply List.Forall_cons; [apply nibble_pair; assumption|]); apply List.Forall_nil.
Qed.

Lemma decrypt_encrypt RK P :
  length P = 8 -> Forall is_byte P -> Spec.decrypt RK (Spec.encrypt RK P) = P.
Proof.
  intros H HB; unfold Spec.decrypt, Spec.encrypt.
  destruct (unpack_ok P H HB) as [HL HN].
  destruct (encrypt_nibbles_ok RK _ HL HN) as [HL' HN'].
  rewrite unpack_pack, decrypt_encrypt_nibbles by assumption.
  apply pack_unpack; assumption.
Qed.

Lemma encrypt_decrypt RK C :
  length C = 8 -> Forall is_byte C -> Spec.encrypt RK (Spec.decrypt RK C) = C.
Proof.
  intros H HB; unfold Spec.decrypt, Spec.encrypt.
  destruct (unpack_ok C H HB) as [HL HN].
  destruct (decrypt_nibbles_ok RK _ HL HN) as [HL' HN'].
  rewrite unpack_pack, encrypt_decrypt_nibbles by assumption.
  apply pack_unpack; assumption.
Qed.

Lemma encrypt_ok RK P :
  length P = 8 -> Forall is_byte P ->
  length (Spec.encrypt RK P) = 8 /\ Forall is_byte (Spec.encrypt RK P).
Proof.
  intros H HB; destruct (unpack_ok P H HB) as [HL HN].
  destruct (encrypt_nibbles_ok RK _ HL HN); apply pack_ok; assumption.
Qed.

Lemma decrypt_ok RK P :
  length P = 8 -> Forall is_byte P ->
  length (Spec.decrypt RK P) = 8 /\ Forall is_byte (Spec.decrypt RK P).
Proof.
  intros H HB; destruct (unpack_ok P H HB) as [HL HN].
  destruct (decrypt_nibbles_ok RK _ HL HN); apply pack_ok; assumption.
Qed.

(** ** Key schedule: every statement keeps the register in nibbles *)

Section SchedInvariant.
Variables (size : nat) (key0 : list Z).
Hypothesis Hkey : Forall is_byte key0.

Local Abbreviation inv := (sched_inv size key0).


Ltac enter_keeps s :=
  intros s (HR & HK & HL & HN & HC & HT0 & HT1 & HT2 & HT3);
  destruct s as [R K W c t0 t1 t2 t3];
  cbn [Sched.t_rk Sched.key Sched.wk Sched.con
       Sched.tmp0 Sched.tmp1 Sched.tmp2 Sched.tmp3] in *;
  subst K.

Ltac lookup_in l i v E :=
  let H := fresh in
  assert (H : i < length l) by lia;
  destruct (lookup_lt_is_Some_2 l i H) as [v E]; clear H.

Ltac leave_keeps :=
  eexists; split; [reflexivity|];
  unfold sched_inv; cbn; conjs;
  try assumption; try reflexivity; try lia; rewrite ?length_insert; try assumption.

Lemma keeps_unpack_hi i :
  i < length key0 -> 2 * i < size -> keeps inv (Sched.unpack_hi i).
Proof.
  intros Hi Hs; enter_keeps s.
  lookup_in key0 i b Eb.
  pose proof (Forall_lookup_1 _ _ _ _ Hkey Eb) as Hb.
  unfold Sched.unpack_hi; cbn; rewrite Eb; cbn.
  rewrite store_lt by lia; cbn; leave_keeps.
  apply Forall_insert; [assumption|].
  rewrite (proj1 (byte_hi b Hb)); apply byte_hi, Hb.
Qed.

Lemma keeps_unpack_lo i :
  i < length key0 -> 2 * i + 1 < size -> keeps inv (Sched.unpack_lo i).
Proof.
  intros Hi Hs; enter_keeps s.
  lookup_in key0 i b Eb.
  pose proof (Forall_lookup_1 _ _ _ _ Hkey Eb) as Hb.
  unfold Sched.unpack_lo; cbn; rewrite Eb; cbn.
  rewrite store_lt by lia; cbn; leave_keeps.
  apply Forall_insert; [assumption|].
  rewrite (proj1 (byte_lo b Hb)); apply byte_lo, Hb.
Qed.

Lemma keeps_tap i j k :
  i <= 36 -> j < 8 -> k < size -> keeps inv (Sched.tap i j k).
Proof.
  intros Hi Hj Hk; enter_keeps s.
  lookup_in W k v Ev.
  pose proof (Forall_lookup_1 _ _ _ _ HN Ev) as Hv.
  destruct (rk_ok_row R i HR Hi) as (row & Erow & _ & HrowL & HrowN).
  destruct HR as [HRL HRR].
  unfold Sched.tap; cbn; rewrite Ev; cbn; rewrite Erow; cbn.
  rewrite store_lt by lia; cbn; rewrite store_lt by lia; cbn.
  eexists; split; [reflexivity|].
  unfold sched_inv, rk_ok; cbn; conjs; try assumption; try reflexivity; try lia.
  - rewrite length_insert; assumption.
  - apply Forall_insert; [assumption|].
    split; [rewrite length_insert; assumption | apply Forall_insert; assumption].
Qed.

Lemma keeps_mix a b : a < size -> b < size -> keeps inv (Sched.mix a b).
Proof.
  intros Ha Hb; enter_keeps s.
  lookup_in W b i Ei; lookup_in W a o Eo.
  pose proof (Forall_lookup_1 _ _ _ _ HN Ei) as Hi.
  pose proof (Forall_lookup_1 _ _ _ _ HN Eo) as Ho.
  unfold Sched.mix; cbn; rewrite Ei; cbn; rewrite sbox_lookup by assumption; cbn.
  rewrite Eo; cbn; rewrite store_lt by lia; cbn; leave_keeps.
  apply Forall_insert; auto with nib.
Qed.

Lemma keeps_load_con i : i <= 36 -> keeps inv (Sched.load_con i).
Proof.
  intros Hi; enter_keeps s.
  unfold Sched.load_con; rewrite roundconst_lookup by assumption; cbn; leave_keeps.
  all: pose proof (RCON_small i); lia.
Qed.

Lemma keeps_inject_hi : 7 < size -> keeps inv Sched.inject_hi.
Proof.
  intros Hs; enter_keeps s.
  lookup_in W 7 o Eo.
  pose proof (Forall_lookup_1 _ _ _ _ HN Eo) as Ho.
  unfold Sched.inject_hi; cbn; rewrite Eo; cbn; rewrite store_lt by lia; cbn; leave_keeps.
  apply Forall_insert; [assumption|].
  apply nibble_lxor; [assumption | apply nibble_con_hi, HC].
Qed.

Lemma keeps_inject_lo : 19 < size -> keeps inv Sched.inject_lo.
Proof.
  intros Hs; enter_keeps s.
  lookup_in W 19 o Eo.
  pose proof (Forall_lookup_1 _ _ _ _ HN Eo) as Ho.
  unfold Sched.inject_lo; cbn; rewrite Eo; cbn; rewrite store_lt by lia; cbn; leave_keeps.
  apply Forall_insert; auto with nib.
Qed.

Lemma keeps_save_tmps : 3 < size -> keeps inv Sched.save_tmps.
Proof.
  intros Hs; enter_keeps s.
  lookup_in W 0 v0 E0; lookup_in W 1 v1 E1; lookup_in W 2 v2 E2; lookup_in W 3 v3 E3.
  unfold Sched.save_tmps; cbn; rewrite E0, E1, E2, E3; cbn.
  eexists; split; [reflexivity|].
  unfold sched_inv; cbn; conjs; try assumption; try reflexivity; try lia;
    eapply (Forall_lookup_1 _ _ _ _ HN); eassumption.
Qed.

Lemma keeps_move a b : a < size -> b < size -> keeps inv (Sched.move a b).
Proof.
  intros Ha Hb; enter_keeps s.
  lookup_in W b v Ev.
  pose proof (Forall_lookup_1 _ _ _ _ HN Ev) as Hv.
  unfold Sched.move; cbn; rewrite Ev; cbn; rewrite store_lt by lia; cbn; leave_keeps.
  apply Forall_insert; assumption.
Qed.

Lemma keeps_restore a (tmp : Sched.frame -> Z) :
  a < size -> (forall s, inv s -> nibble (tmp s)) ->
  keeps inv (Sched.restore a tmp).
Proof.
  intros Ha Htmp s Hs; pose proof (Htmp s Hs) as Hv; revert s Hs Hv; enter_keeps s.
  intros Hv; unfold Sched.restore; cbn; rewrite store_lt by lia; cbn; leave_keeps.
  apply Forall_insert; assumption.
Qed.

Lemma tmp0_nibble s : inv s -> nibble (Sched.tmp0 s).
Proof. unfold sched_inv; tauto. Qed.
Lemma tmp1_nibble s : inv s -> nibble (Sched.tmp1 s).
Proof. unfold sched_inv; tauto. Qed.
Lemma tmp2_nibble s : inv s -> nibble (Sched.tmp2 s).
Proof. unfold sched_inv; tauto. Qed.
Lemma tmp3_nibble s : inv s -> nibble (Sched.tmp3 s).
Proof. unfold sched_inv; tauto. Qed.

Ltac keeps_all :=
  repeat (apply List.Forall_cons;
          [ first [ apply keeps_tap; lia
                  | apply keeps_mix; lia
                  | apply keeps_load_con; lia
                  | apply keeps_inject_hi; lia
                  | apply keeps_inject_lo; lia
                  | apply keeps_save_tmps; lia
                  | apply keeps_move; lia
                  | apply keeps_restore;
                    [ lia | first [ apply tmp0_nibble | apply tmp1_nibble
                                  | apply tmp2_nibble | apply tmp3_nibble ] ] ]
          | ]);
  apply List.Forall_nil.

Lemma keeps_unpack_loop :
  2 * length key0 <= size -> Forall (keeps inv) (Sched.unpack_loop (length key0)).
Proof.
  intros Hs; unfold Sched.unpack_loop, for_lt.
  apply Forall_flat_map, List.Forall_forall; intros i Hi%in_seq.
  repeat constructor; [apply keeps_unpack_hi | apply keeps_unpack_lo]; lia.
Qed.

Lemma keeps_tap80 i : i <= 36 -> 20 <= size -> Forall (keeps inv) (Sched.tap80 i).
Proof. intros Hi Hs; unfold Sched.tap80; keeps_all. Qed.

Lemma keeps_tap128 i : i <= 36 -> 32 <= size -> Forall (keeps inv) (Sched.tap128 i).
Proof. intros Hi Hs; unfold Sched.tap128; keeps_all. Qed.

Lemma keeps_round80 i : i <= 36 -> 20 <= size -> Forall (keeps inv) (Sched.round80 i).
Proof.
  intros Hi Hs; unfold Sched.round80, Sched.tap80, Sched.shift_loop, for_lt.
  cbn [flat_map seq Nat.sub app Nat.mul Nat.add]; keeps_all.
Qed.

Lemma keeps_round128 i : i <= 36 -> 32 <= size -> Forall (keeps inv) (Sched.round128 i).
Proof.
  intros Hi Hs; unfold Sched.round128, Sched.tap128, Sched.shift_loop, for_lt.
  cbn [flat_map seq Nat.sub app Nat.mul Nat.add]; keeps_all.
Qed.

Lemma keeps_expandKeys80 :
  2 * length key0 <= size -> 20 <= size ->
  Forall (keeps inv) (Sched.expandKeys80_body (length key0)).
Proof.
  intros Hk Hs; unfold Sched.expandKeys80_body.
  apply Forall_app; split; [apply keeps_unpack_loop, Hk|].
  apply Forall_app; split; [|apply keeps_tap80; lia].
  unfold for_le; apply Forall_flat_map, List.Forall_forall; intros i Hi%in_seq.
  apply keeps_round80; lia.
Qed.

Lemma keeps_expandKeys128 :
  2 * length key0 <= size -> 32 <= size ->
  Forall (keeps inv) (Sched.expandKeys128_body (length key0)).
Proof.
  intros Hk Hs; unfold Sched.expandKeys128_body.
  apply Forall_app; split; [apply keeps_unpack_loop, Hk|].
  apply Forall_app; split; [|apply keeps_tap128; lia].
  unfold for_le; apply Forall_flat_map, List.Forall_forall; intros i Hi%in_seq.
  apply keeps_round128; lia.
Qed.

Lemma sched_inv_enter t :
  rk_ok (rk t) -> inv (Sched.enter size t key0).
Proof.
  intros HR; unfold sched_inv, Sched.enter; cbn; conjs;
    try assumption; try apply nibble_0; try lia; try reflexivity.
  - apply length_replicate.
  - apply Forall_replicate, nibble_0.
Qed.
End SchedInvariant.

Lemma rk_ok_zero : rk_ok (rk zero_twine).
Proof.
  split; [reflexivity|]; unfold zero_twine, rk.
  apply Forall_replicate; split; [reflexivity | apply Forall_replicate, nibble_0].
Qed.

(** ** The 80-bit key schedule refines the specification's *)

Ltac sched_unfold :=
  cbv beta iota delta [Sched.set_rk Sched.set_wk Sched.set_con Sched.set_tmps
                       Sched.t_rk Sched.key Sched.wk Sched.con
                       Sched.tmp0 Sched.tmp1 Sched.tmp2 Sched.tmp3].

Ltac sched_unfold_all :=
  cbv beta iota delta [Sched.set_rk Sched.set_wk Sched.set_con Sched.set_tmps
                       Sched.t_rk Sched.key Sched.wk Sched.con
                       Sched.tmp0 Sched.tmp1 Sched.tmp2 Sched.tmp3] in *.

Ltac sched_step :=
  eapply exec_step;
  [ cbv beta delta [Sched.mix Sched.load_con Sched.inject_hi Sched.inject_lo
                    Sched.save_tmps Sched.move Sched.restore
                    Sched.unpack_hi Sched.unpack_lo];
    cbn; rewrite ?sbox_lookup by auto with nib;
    rewrite ?roundconst_lookup by lia; cbn;
    sched_unfold; reflexivity |].

Lemma taps_exec s i row k0 k1 k2 k3 k4 k5 k6 k7 v0 v1 v2 v3 v4 v5 v6 v7 :
  Sched.t_rk s !! i = Some row -> length row = 8 ->
  Sched.wk s !! k0 = Some v0 -> Sched.wk s !! k1 = Some v1 ->
  Sched.wk s !! k2 = Some v2 -> Sched.wk s !! k3 = Some v3 ->
  Sched.wk s !! k4 = Some v4 -> Sched.wk s !! k5 = Some v5 ->
  Sched.wk s !! k6 = Some v6 -> Sched.wk s !! k7 = Some v7 ->
  exec [ Sched.tap i 0 k0; Sched.tap i 1 k1; Sched.tap i 2 k2; Sched.tap i 3 k3;
         Sched.tap i 4 k4; Sched.tap i 5 k5; Sched.tap i 6 k6; Sched.tap i 7 k7 ] s
  = Some (Sched.set_rk s (<[i := [v0; v1; v2; v3; v4; v5; v6; v7]]> (Sched.t_rk s))).
Proof.
  intros Erow HL E0 E1 E2 E3 E4 E5 E6 E7.
  pose proof (lookup_lt_Some _ _ _ Erow) as Hi.
  destruct s as [R K W c t0 t1 t2 t3]; sched_unfold_all.
  explode row.
  do 8 (eapply exec_step;
        [ unfold Sched.tap; sched_unfold;
          rewrite ?E0, ?E1, ?E2, ?E3, ?E4, ?E5, ?E6, ?E7; cbn;
          first [rewrite Erow | rewrite list_lookup_insert_eq by lia]; cbn;
          rewrite store_lt by (rewrite ?length_insert; lia); cbn;
          rewrite ?list_insert_insert_eq; sched_unfold; reflexivity |]).
  reflexivity.
Qed.

Lemma update80_ok i W :
  length W = 20 -> Forall nibble W ->
  length (Spec.update80 i W) = 20 /\ Forall nibble (Spec.update80 i W).
Proof.
  intros HL HN; explode W; split_Forall; cbn; split; [reflexivity|].
  pose proof (nibble_con_hi _ (RCON_small i)).
  nibs.
Qed.

Lemma round80_ok i s :
  i <= 36 -> length (Sched.wk s) = 20 -> Forall nibble (Sched.wk s) ->
  length (Sched.t_rk s) = 37 -> Forall (fun row => length row = 8) (Sched.t_rk s) ->
  exists s', exec (Sched.round80 i) s = Some s'
             /\ Sched.wk s' = Spec.update80 i (Sched.wk s)
             /\ Sched.t_rk s' = <[i := Spec.tap80 (Sched.wk s)]> (Sched.t_rk s)
             /\ Sched.key s' = Sched.key s.
Proof.
  intros Hi HL HN HRL HRR.
  destruct (lookup_lt_is_Some_2 (Sched.t_rk s) i) as [row Erow]; [lia|].
  pose proof (Forall_lookup_1 _ _ _ _ HRR Erow) as Hrow.
  destruct s as [R K W c t0 t1 t2 t3]; sched_unfold_all.
  explode W; split_Forall.
  unfold Sched.round80, Sched.tap80.
  erewrite exec_seq by (eapply taps_exec; [exact Erow | exact Hrow | reflexivity ..]).
  unfold Sched.shift_loop, for_lt; cbn [flat_map seq Nat.sub app Nat.mul Nat.add].
  sched_unfold.
  eexists; split.
  { do 26 sched_step. reflexivity. }
  sched_unfold; cbn; conjs; reflexivity.
Qed.

Lemma for_le_S {F : Type} (body : nat -> list (stmt F)) n :
  for_le 1 (S n) body = for_le 1 n body ++ body (S n).
Proof.
  unfold for_le.
  replace (S (S n) - 1) with (S n) by lia; replace (S n - 1) with n by lia.
  rewrite seq_S, flat_map_app; cbn; rewrite app_nil_r; reflexivity.
Qed.

Lemma unpack_nibbles bs :
  Forall is_byte bs ->
  length (Spec.unpack bs) = 2 * length bs /\ Forall nibble (Spec.unpack bs).
Proof.
  induction 1 as [|b bs Hb _ [IL IN]]; [split; [reflexivity | constructor]|].
  change (Spec.unpack (b :: bs)) with (b / 16 :: b mod 16 :: Spec.unpack bs)%Z.
  cbn [length]; split; [rewrite IL; lia|].
  apply List.Forall_cons; [apply byte_hi, Hb|].
  apply List.Forall_cons; [apply byte_lo, Hb | exact IN].
Qed.

Lemma register80_S key n :
  Spec.register80 key (S n) = Spec.update80 (S n) (Spec.register80 key n).
Proof. unfold Spec.register80; rewrite seq_S, foldl_snoc; reflexivity. Qed.

Lemma register80_ok key n :
  length key = 10 -> Forall is_byte key ->
  length (Spec.register80 key n) = 20 /\ Forall nibble (Spec.register80 key n).
Proof.
  intros HL HB; induction n as [|n [IL IN]].
  - destruct (unpack_nibbles key HB) as [L N]; split; [|exact N].
    unfold Spec.register80; cbn [seq foldl]; rewrite L, HL; reflexivity.
  - rewrite register80_S; apply update80_ok; assumption.
Qed.

Lemma sched_unpack_ok t key :
  length key = 10 -> Forall is_byte key ->
  exists s, exec (Sched.unpack_loop (length key)) (Sched.enter 20 t key) = Some s
            /\ Sched.wk s = Spec.unpack key
            /\ Sched.t_rk s = rk t /\ Sched.key s = key.
Proof.
  intros HL HB; explode key; split_Forall.
  unfold Sched.unpack_loop, for_lt, Sched.enter.
  cbn [length flat_map seq Nat.sub app replicate].
  eexists; split.
  { do 20 sched_step. reflexivity. }
  sched_unfold; cbn; bytes_to_nibbles; conjs; reflexivity.
Qed.

(** The schedule after the unpacking and [n] rounds. *)
Lemma rounds80_ok t key n :
  length key = 10 -> Forall is_byte key ->
  length (rk t) = 37 -> Forall (fun row => length row = 8) (rk t) ->
  n <= 35 ->
  exists s,
    exec (Sched.unpack_loop (length key) ++ for_le 1 n Sched.round80)
         (Sched.enter 20 t key) = Some s
    /\ Sched.wk s = Spec.register80 key n
    /\ length (Sched.t_rk s) = 37
    /\ Forall (fun row => length row = 8) (Sched.t_rk s)
    /\ (forall i, 1 <= i <= n -> Sched.t_rk s !! i = Some (Spec.RK80 key i))
    /\ (forall i, i = 0 \/ n < i -> Sched.t_rk s !! i = rk t !! i).
Proof.
  intros HL HB HRL HRR; induction n as [|n IH]; intros Hn.
  - destruct (sched_unpack_ok t key HL HB) as (s & E & Hwk & Hrk & _).
    exists s; unfold for_le; cbn [Nat.sub seq flat_map]; rewrite app_nil_r.
    rewrite Hrk; conjs; auto; intros; lia.
  - destruct IH as (s & E & Hwk & HsL & HsR & Hrows & Hrest); [lia|].
    destruct (register80_ok key n HL HB) as [WL WN].
    destruct (round80_ok (S n) s) as (s' & E' & Hwk' & Hrk' & _);
      rewrite ?Hwk; try assumption; try lia.
    exists s'; rewrite for_le_S, app_assoc, (exec_seq _ _ _ _ E).
    rewrite Hrk', Hwk', Hwk in *; conjs.
    + exact E'.
    + symmetry; apply register80_S.
    + rewrite length_insert; assumption.
    + apply Forall_insert; [assumption | reflexivity].
    + intros i Hi; destruct (decide (i = S n)) as [->|Hne].
      * rewrite list_lookup_insert_eq by lia.
        unfold Spec.RK80; replace (S n - 1) with n by lia; reflexivity.
      * rewrite list_lookup_insert_ne by lia; apply Hrows; lia.
    + intros i Hi; rewrite list_lookup_insert_ne by lia; apply Hrest; lia.
Qed.

Lemma tap80_ok i s :
  i <= 36 -> length (Sched.wk s) = 20 ->
  length (Sched.t_rk s) = 37 -> Forall (fun row => length row = 8) (Sched.t_rk s) ->
  exec (Sched.tap80 i) s
  = Some (Sched.set_rk s (<[i := Spec.tap80 (Sched.wk s)]> (Sched.t_rk s))).
Proof.
  intros Hi HL HRL HRR.
  destruct (lookup_lt_is_Some_2 (Sched.t_rk s) i) as [row Erow]; [lia|].
  pose proof (Forall_lookup_1 _ _ _ _ HRR Erow) as Hrow.
  destruct s as [R K W c t0 t1 t2 t3]; sched_unfold_all.
  explode W.
  unfold Sched.tap80.
  erewrite taps_exec; [reflexivity | exact Erow | exact Hrow | reflexivity ..].
Qed.

(** The whole of [expandKeys80]. *)
Lemma expandKeys80_ok t key :
  length key = 10 -> Forall is_byte key ->
  length (rk t) = 37 -> Forall (fun row => length row = 8) (rk t) ->
  exists t', expandKeys80 t key = Some t'
             /\ (forall i, 1 <= i <= 36 -> rk t' !! i = Some (Spec.RK80 key i))
             /\ rk t' !! 0 = rk t !! 0
             /\ length (rk t') = 37.
Proof.
  intros HL HB HRL HRR.
  destruct (rounds80_ok t key 35 HL HB HRL HRR (Nat.le_refl _))
    as (s & E & Hwk & HsL & HsR & Hrows & Hrest).
  destruct (register80_ok key 35 HL HB) as [WL WN].
  pose proof (tap80_ok 36 s) as E'; rewrite Hwk in E'.
  specialize (E' ltac:(lia) WL HsL HsR).
  eexists; unfold expandKeys80, Sched.expandKeys80_body.
  rewrite app_assoc, (exec_seq _ _ _ _ E), E'; cbv [mbind option_bind].
  split; [reflexivity|]; cbn [rk Sched.t_rk Sched.set_rk]; conjs.
  - intros i Hi; destruct (decide (i = 36)) as [->|Hne].
    + rewrite list_lookup_insert_eq by lia; reflexivity.
    + rewrite list_lookup_insert_ne by lia; apply Hrows; lia.
  - rewrite list_lookup_insert_ne by lia; apply Hrest; auto.
  - rewrite length_insert; assumption.
Qed.

(** ** Construction *)

Lemma New_bad key :
  length key <> 10 -> length key <> 16 ->
  New key = Some (None, Some (Z.of_nat (length key))).
Proof.
  intros H10 H16; unfold New.
  apply Nat.eqb_neq in H10, H16; rewrite H10, H16; reflexivity.
Qed.

Lemma New_80 key :
  length key = 10 -> Forall is_byte key ->
  exists t, New key = Some (Some t, None) /\ expandKeys80 zero_twine key = Some t
            /\ rk_ok (rk t).
Proof.
  intros HL HB.
  destruct (exec_keeps (sched_inv 20 key) (Sched.expandKeys80_body (length key)))
    with (s := Sched.enter 20 zero_twine key) as (s & E & HI).
  { apply keeps_expandKeys80; [assumption | lia | lia]. }
  { apply sched_inv_enter, rk_ok_zero. }
  exists (mkTwine (Sched.t_rk s)); unfold New, expandKeys80.
  rewrite HL in *; cbn [Nat.eqb negb andb]; rewrite E.
  repeat split; apply HI.
Qed.

Lemma New_128 key :
  length key = 16 -> Forall is_byte key ->
  exists t, New key = Some (Some t, None) /\ expandKeys128 zero_twine key = Some t
            /\ rk_ok (rk t).
Proof.
  intros HL HB.
  destruct (exec_keeps (sched_inv 32 key) (Sched.expandKeys128_body (length key)))
    with (s := Sched.enter 32 zero_twine key) as (s & E & HI).
  { apply keeps_expandKeys128; [assumption | lia | lia]. }
  { apply sched_inv_enter, rk_ok_zero. }
  exists (mkTwine (Sched.t_rk s)); unfold New, expandKeys128.
  rewrite HL in *; cbn [Nat.eqb negb andb]; rewrite E.
  repeat split; apply HI.
Qed.


Lemma New_valid key :
  valid_key key -> exists t, New key = Some (Some t, None) /\ rk_ok (rk t).
Proof.
  intros [[HL|HL] HB].
  - destruct (New_80 key HL HB) as (t & E & _ & H); eauto.
  - destruct (New_128 key HL HB) as (t & E & _ & H); eauto.
Qed.

(** ** Over-long sources *)

Lemma exec_stuck {F : Type} (c : stmt F) p s : c s = None -> exec (c :: p) s = None.
Proof. intros H; cbn; rewrite H; reflexivity. Qed.

(** The unpack loop on more than eight source bytes: sixteen assignments
    fill [x], the seventeenth indexes [x[16]]. *)
Lemma unpack_overflow t dst src rest :
  8 < length src ->
  (exists s, exec (take 16 (Block.unpack_loop (length src) ++ rest)) (Block.enter t dst src) = Some s
             /\ Block.dst s = dst)
  /\ exec (take 17 (Block.unpack_loop (length src) ++ rest)) (Block.enter t dst src) = None
  /\ exec (Block.unpack_loop (length src) ++ rest) (Block.enter t dst src) = None.
Proof.
  intros H.
  do 9 (destruct src as [|? src]; [cbn in H; lia|]).
  unfold Block.unpack_loop, for_lt, Block.enter.
  cbn [length Nat.sub seq flat_map app take]; conjs.
  - eexists; split; [do 16 block_step idtac; reflexivity | reflexivity].
  - do 16 block_step idtac. apply exec_stuck; reflexivity.
  - do 16 block_step idtac. apply exec_stuck; reflexivity.
Qed.

(** ** The claims *)

Ltac bytes :=
  repeat (apply List.Forall_cons; [unfold is_byte; lia|]); apply List.Forall_nil.

(** C1: the two published vectors: the plaintext 0123456789ABCDEF encrypts
    to 7C1F0F80B1DF9C28 under the 80-bit key and to 979FF9B379B5A9B8 under the
    128-bit key. *)
Theorem known_answer_vectors :
  New_then Encrypt key80 (replicate 8 0%Z) plain
    = Some [0x7C; 0x1F; 0x0F; 0x80; 0xB1; 0xDF; 0x9C; 0x28]%Z
  /\ New_then Encrypt key128 (replicate 8 0%Z) plain
    = Some [0x97; 0x9F; 0xF9; 0xB3; 0x79; 0xB5; 0xA9; 0xB8]%Z.
Proof. split; vm_compute; reflexivity. Qed.

(** C2: on the instance built from a valid key, decrypting the encryption
    of an 8-byte block gives the block back, and encrypting the decryption of
    an 8-byte block gives it back. *)
Theorem round_trip key P C dst1 dst2 :
  valid_key key ->
  length P = 8 -> Forall is_byte P ->
  length C = 8 -> Forall is_byte C ->
  length dst1 = 8 -> length dst2 = 8 ->
  exists t, New key = Some (Some t, None)
    /\ (exists c, Encrypt t dst1 P = Some c /\ Decrypt t dst2 c = Some P)
    /\ (exists p, Decrypt t dst1 C = Some p /\ Encrypt t dst2 p = Some C).
Proof.
  intros HK HP HPB HC HCB H1 H2.
  destruct (New_valid key HK) as (t & E & HR).
  exists t; split; [exact E|].
  assert (D1 : drop 8 dst1 = []) by (apply drop_ge; lia).
  assert (D2 : drop 8 dst2 = []) by (apply drop_ge; lia).
  split.
  - destruct (encrypt_ok (rk t) P HP HPB) as [L B].
    exists (Spec.encrypt (rk t) P); split.
    + rewrite Encrypt_ok, D1, app_nil_r, pad8_full by (assumption || lia); reflexivity.
    + rewrite Decrypt_ok, D2, app_nil_r, pad8_full by (assumption || lia).
      rewrite decrypt_encrypt by assumption; reflexivity.
  - destruct (decrypt_ok (rk t) C HC HCB) as [L B].
    exists (Spec.decrypt (rk t) C); split.
    + rewrite Decrypt_ok, D1, app_nil_r, pad8_full by (assumption || lia); reflexivity.
    + rewrite Encrypt_ok, D2, app_nil_r, pad8_full by (assumption || lia).
      rewrite encrypt_decrypt by assumption; reflexivity.
Qed.

Lemma valid_key80 : valid_key key80.
Proof. split; [left; reflexivity | unfold key80; bytes]. Defined.

Lemma valid_key128 : valid_key key128.
Proof. split; [right; reflexivity | unfold key128; bytes]. Defined.

Lemma plain_bytes : Forall is_byte plain.
Proof. unfold plain; bytes. Defined.

Lemma round_trip_witness :
  exists t, New key128 = Some (Some t, None)
    /\ (exists c, Encrypt t (replicate 8 0%Z) plain = Some c
                  /\ Decrypt t (replicate 8 0%Z) c = Some plain)
    /\ (exists p, Decrypt t (replicate 8 0%Z) plain = Some p
                  /\ Encrypt t (replicate 8 0%Z) p = Some plain).
Proof.
  apply (round_trip key128 plain plain (replicate 8 0%Z) (replicate 8 0%Z));
    first [exact valid_key128 | exact plain_bytes | reflexivity].
Defined.

(** C3: [New] returns the key-size error exactly when the key is neither
    10 nor 16 bytes long; the error is the offending length, its message is
    the fixed prefix followed by the decimal numeral of that length; for a key
    of 10 or 16 bytes [New] returns an instance and no error. *)
Theorem New_error_iff_bad_length (key : list Z) :
  ((exists e, New key = Some (None, Some e)) <-> (length key <> 10 /\ length key <> 16))
  /\ (forall e, New key = Some (None, Some e) ->
        e = Z.of_nat (length key)
        /\ exists d, Error e = String.append "twine: invalid key size " d
                     /\ option_map Z.of_int (NilZero.int_of_string d)
                        = Some (Z.of_nat (length key)))
  /\ (length key = 10 \/ length key = 16 -> Forall is_byte key ->
        exists t, New key = Some (Some t, None)).
Proof.
  assert (Hgood : length key = 10 \/ length key = 16 ->
                  forall e, New key <> Some (None, Some e)).
  { intros HL e; unfold New.
    destruct HL as [-> | ->]; cbn [Nat.eqb negb andb];
      match goal with |- context [?m ≫= _] => destruct m end; discriminate. }
  assert (Hbad : length key <> 10 -> length key <> 16 -> forall e,
                 New key = Some (None, Some e) -> e = Z.of_nat (length key)).
  { intros H10 H16 e; rewrite New_bad by assumption; congruence. }
  split; [split|split].
  - intros [e He]; split; intros HL; apply (Hgood ltac:(auto) e He).
  - intros [H10 H16]; eexists; apply New_bad; assumption.
  - intros e He.
    destruct (Nat.eq_dec (length key) 10) as [H10|H10]; [destruct (Hgood (or_introl H10) e He)|].
    destruct (Nat.eq_dec (length key) 16) as [H16|H16]; [destruct (Hgood (or_intror H16) e He)|].
    pose proof (Hbad H10 H16 e He) as ->; split; [reflexivity|].
    exists (Itoa (Z.of_nat (length key))); split; [reflexivity|].
    unfold Itoa; rewrite NilZero.isi.
    + cbn [option_map]; rewrite DecimalZ.of_to; reflexivity.
    + destruct (length key); cbn; [discriminate|].
      intros [= Hnil]; revert Hnil; apply Unsigned.to_uint_nonnil.
    + destruct (length key); cbn; discriminate.
  - intros HL HB; destruct (New_valid key (conj HL HB)) as (t & E & _); eauto.
Qed.

Lemma New_error_iff_bad_length_witness :
  New [1; 2; 3; 4; 5; 6; 7; 8; 9]%Z = Some (None, Some 9%Z)
  /\ Error 9%Z = "twine: invalid key size 9"%string
  /\ exists t, New key80 = Some (Some t, None).
Proof.
  split; [reflexivity|]; split; [reflexivity|].
  apply (New_error_iff_bad_length key80); [left; reflexivity | apply valid_key80].
Defined.

(** C4: for a valid key and an 8-byte source, [Encrypt] completes and the
    destination holds the block computed by the steps of the specification:
    unpack high nibble first, rounds 1..35 of Feistel step and shuffle, round
    36 of the Feistel step alone, repack. *)
Theorem Encrypt_steps key src dst :
  valid_key key ->
  length src = 8 -> Forall is_byte src -> length dst = 8 ->
  exists t, New key = Some (Some t, None)
            /\ Encrypt t dst src = Some (Spec.encrypt (rk t) src).
Proof.
  intros HK HL HB HD.
  destruct (New_valid key HK) as (t & E & HR).
  exists t; split; [exact E|].
  rewrite Encrypt_ok, pad8_full, drop_ge, app_nil_r by (assumption || lia); reflexivity.
Qed.

Lemma Encrypt_steps_witness :
  exists t, New key80 = Some (Some t, None)
            /\ Encrypt t (replicate 8 0%Z) plain = Some (Spec.encrypt (rk t) plain).
Proof.
  apply (Encrypt_steps key80 plain (replicate 8 0%Z));
    first [exact valid_key80 | exact plain_bytes | reflexivity].
Defined.

(** C5: for a 10-byte key, [expandKeys80] unpacks the key into the 20-nibble
    register; after n rounds the register is the specification's register
    after n updates (non-linear mix, round-constant injection, twisted
    rotation), RK[i] being the tap at positions 1,3,4,6,13,14,15,16 of the
    register before the update of round i; RK[36] is the tap after the loop. *)
Theorem expandKeys80_schedule t key :
  length key = 10 -> Forall is_byte key ->
  length (rk t) = 37 -> Forall (fun row => length row = 8) (rk t) ->
  (forall n, n <= 35 ->
     exists s,
       exec (Sched.unpack_loop (length key) ++ for_le 1 n Sched.round80)
            (Sched.enter 20 t key) = Some s
       /\ Sched.wk s = Spec.register80 key n
       /\ forall i, 1 <= i <= n -> Sched.t_rk s !! i = Some (Spec.RK80 key i))
  /\ exists t', expandKeys80 t key = Some t'
                /\ forall i, 1 <= i <= 36 -> rk t' !! i = Some (Spec.RK80 key i).
Proof.
  intros HL HB HRL HRR; split.
  - intros n Hn.
    destruct (rounds80_ok t key n HL HB HRL HRR Hn) as (s & E & Hwk & _ & _ & Hrows & _).
    eauto.
  - destruct (expandKeys80_ok t key HL HB HRL HRR) as (t' & E & Hrows & _).
    eauto.
Qed.

Lemma expandKeys80_schedule_witness :
  exists t', expandKeys80 zero_twine key80 = Some t'
             /\ forall i, 1 <= i <= 36 -> rk t' !! i = Some (Spec.RK80 key80 i).
Proof.
  apply (expandKeys80_schedule zero_twine key80);
    [ reflexivity | apply valid_key80 | reflexivity
    | apply Forall_replicate; reflexivity ].
Defined.

(** Every source longer than 8 bytes: the unpack loop runs over the whole
    source, its first sixteen assignments fill [x] from the first eight bytes
    and leave the destination as it was, and the seventeenth indexes [x[16]]
    and panics, whatever the instance. *)
Lemma overlong_source_panics t dst src :
  8 < length src ->
  Encrypt t dst src = None /\ Decrypt t dst src = None
  /\ (exists s, exec (take 16 (Block.Encrypt_body (length src))) (Block.enter t dst src) = Some s
                /\ Block.dst s = dst)
  /\ exec (take 17 (Block.Encrypt_body (length src))) (Block.enter t dst src) = None
  /\ (exists s, exec (take 16 (Block.Decrypt_body (length src))) (Block.enter t dst src) = Some s
                /\ Block.dst s = dst)
  /\ exec (take 17 (Block.Decrypt_body (length src))) (Block.enter t dst src) = None.
Proof.
  intros H.
  destruct (unpack_overflow t dst src
              (for_le 1 35 Block.Encrypt_round ++ Block.feistel_loop 36 ++ Block.repack_loop) H)
    as (E16 & E17 & EN).
  destruct (unpack_overflow t dst src
              (for_down 36 2 Block.Decrypt_round ++ Block.feistel_loop 1 ++ Block.repack_loop) H)
    as (D16 & D17 & DN).
  unfold Encrypt, Decrypt, Block.Encrypt_body, Block.Decrypt_body.
  rewrite EN, DN; conjs; auto.
Qed.

(** C6: the code at the failing input.  With the 80-bit test key and the
    nine-byte source 01 23 45 67 89 AB CD EF 00, [Encrypt] and [Decrypt]
    panic, where the claim asks for the transform of the first eight bytes;
    on that eight-byte prefix the same instance gives 7C1F0F80B1DF9C28 and
    15B55BA46C1B1C6D. *)
Theorem overlong_source_failing_input :
  New_then Encrypt key80 (replicate 8 0%Z) (plain ++ [0%Z]) = None
  /\ New_then Encrypt key80 (replicate 8 0%Z) (take 8 (plain ++ [0%Z]))
     = Some [0x7C; 0x1F; 0x0F; 0x80; 0xB1; 0xDF; 0x9C; 0x28]%Z
  /\ New_then Decrypt key80 (replicate 8 0%Z) (plain ++ [0%Z]) = None
  /\ New_then Decrypt key80 (replicate 8 0%Z) (take 8 (plain ++ [0%Z]))
     = Some [0x15; 0xB5; 0x5B; 0xA4; 0x6C; 0x1B; 0x1C; 0x6D]%Z.
Proof. repeat split; vm_compute; reflexivity. Qed.

(** C7: the S-box has sixteen entries, all distinct, which are exactly the
    values 0..15; and for every h in 0..15, shufinv[shuf[h]] = h and
    shuf[shufinv[h]] = h. *)
Theorem tables_structure :
  (length sbox = 16 /\ NoDup sbox /\ forall v, In v sbox <-> nibble v)
  /\ forall h, h < 16 ->
       (shuf !! h ≫= fun d => shufinv !! d) = Some h
       /\ (shufinv !! h ≫= fun d => shuf !! d) = Some h.
Proof.
  split; [split; [reflexivity | split]|].
  - apply (bool_decide_eq_true_1 _); vm_compute; reflexivity.
  - intros v; split.
    + intros Hv; apply (proj1 (List.Forall_forall _ _) sbox_nibbles v Hv).
    + intros Hv.
      apply (nibble_forall (fun v => bool_decide (In v sbox))) in Hv;
        [apply (bool_decide_eq_true_1 _ Hv) | vm_compute; reflexivity].
  - intros h Hh.
    do 16 (destruct h as [|h]; [split; reflexivity|]); lia.
Qed.

Lemma tables_structure_witness :
  (shuf !! 3 ≫= fun d => shufinv !! d) = Some 3
  /\ (shufinv !! 3 ≫= fun d => shuf !! d) = Some 3.
Proof. apply (proj2 tables_structure 3); lia. Defined.

(** C8: for a valid key, every entry rk[i][j] (i in 1..36, j in 0..7) of
    the instance [New] builds is in 0..15, its high four bits being zero; and
    after every prefix of the assignments of either key expansion the working
    register holds only values in 0..15. *)
Theorem nibble_invariant key :
  valid_key key ->
  (exists t, New key = Some (Some t, None)
     /\ forall i j, 1 <= i <= 36 -> j < 8 ->
          exists v, (rk t !! i ≫= fun row => row !! j) = Some v
                    /\ nibble v /\ Z.shiftr v 4 = 0%Z)
  /\ (length key = 10 -> forall n,
        exists s, exec (take n (Sched.expandKeys80_body (length key)))
                       (Sched.enter 20 zero_twine key) = Some s
                  /\ length (Sched.wk s) = 20 /\ Forall nibble (Sched.wk s))
  /\ (length key = 16 -> forall n,
        exists s, exec (take n (Sched.expandKeys128_body (length key)))
                       (Sched.enter 32 zero_twine key) = Some s
                  /\ length (Sched.wk s) = 32 /\ Forall nibble (Sched.wk s)).
Proof.
  intros HK; pose proof HK as [HL HB]; conjs.
  - destruct (New_valid key HK) as (t & E & HR).
    exists t; split; [exact E|]; intros i j Hi Hj.
    destruct (rk_ok_row (rk t) i HR ltac:(lia)) as (row & Erow & _ & HrowL & HrowN).
    destruct (lookup_lt_is_Some_2 row j) as [v Ev]; [lia|].
    pose proof (Forall_lookup_1 _ _ _ _ HrowN Ev) as Hv.
    exists v; rewrite Erow; cbn; split; [exact Ev|].
    split; [exact Hv | apply nibble_high_bits, Hv].
  - intros H10 n.
    destruct (exec_prefix (sched_inv 20 key) (Sched.expandKeys80_body (length key)))
      with (n := n) (s := Sched.enter 20 zero_twine key) as (s & E & HI).
    { apply keeps_expandKeys80; [assumption | lia | lia]. }
    { apply sched_inv_enter, rk_ok_zero. }
    exists s; split; [exact E|]; split; apply HI.
  - intros H16 n.
    destruct (exec_prefix (sched_inv 32 key) (Sched.expandKeys128_body (length key)))
      with (n := n) (s := Sched.enter 32 zero_twine key) as (s & E & HI).
    { apply keeps_expandKeys128; [assumption | lia | lia]. }
    { apply sched_inv_enter, rk_ok_zero. }
    exists s; split; [exact E|]; split; apply HI.
Qed.

Lemma nibble_invariant_witness :
  exists t, New key128 = Some (Some t, None)
     /\ forall i j, 1 <= i <= 36 -> j < 8 ->
          exists v, (rk t !! i ≫= fun row => row !! j) = Some v
                    /\ nibble v /\ Z.shiftr v 4 = 0%Z.
Proof. exact (proj1 (nibble_invariant key128 valid_key128)). Defined.

(** C9: the output block is a function of the key and the source alone:
    two instances built from the same key, called on the same source with
    any two destinations, write the same eight bytes, leave the rest of the
    destination as it was, and leave the receiver's round keys and the source
    unchanged. *)
Theorem deterministic key t1 t2 src dst1 dst2 :
  valid_key key ->
  New key = Some (Some t1, None) -> New key = Some (Some t2, None) ->
  length src = 8 -> Forall is_byte src ->
  8 <= length dst1 -> 8 <= length dst2 ->
  (exists out, length out = 8
     /\ Encrypt t1 dst1 src = Some (out ++ drop 8 dst1)
     /\ Encrypt t2 dst2 src = Some (out ++ drop 8 dst2))
  /\ (exists out, length out = 8
     /\ Decrypt t1 dst1 src = Some (out ++ drop 8 dst1)
     /\ Decrypt t2 dst2 src = Some (out ++ drop 8 dst2))
  /\ (exists s, exec (Block.Encrypt_body (length src)) (Block.enter t1 dst1 src) = Some s
                /\ Block.t_rk s = rk t1 /\ Block.src s = src)
  /\ (exists s, exec (Block.Decrypt_body (length src)) (Block.enter t1 dst1 src) = Some s
                /\ Block.t_rk s = rk t1 /\ Block.src s = src).
Proof.
  intros HK E1 E2 HL HB H1 H2.
  destruct (New_valid key HK) as (t & E & HR).
  assert (t1 = t) by congruence; assert (t2 = t) by congruence; subst t1 t2.
  conjs.
  - exists (Spec.encrypt (rk t) src); split; [apply encrypt_ok; assumption|].
    rewrite !Encrypt_ok, pad8_full by (assumption || lia); auto.
  - exists (Spec.decrypt (rk t) src); split; [apply decrypt_ok; assumption|].
    rewrite !Decrypt_ok, pad8_full by (assumption || lia); auto.
  - destruct (Encrypt_body_ok t dst1 src HR ltac:(lia) HB H1) as (s & Es & Hrk & Hsrc & _).
    eauto.
  - destruct (Decrypt_body_ok t dst1 src HR ltac:(lia) HB H1) as (s & Es & Hrk & Hsrc & _).
    eauto.
Qed.

Lemma deterministic_witness :
  exists t, New key80 = Some (Some t, None)
    /\ exists out, length out = 8
         /\ Encrypt t (replicate 8 0%Z) plain = Some (out ++ drop 8 (replicate 8 0%Z))
         /\ Encrypt t (replicate 9 1%Z) plain = Some (out ++ drop 8 (replicate 9 1%Z)).
Proof.
  destruct (New_valid key80 valid_key80) as (t & E & _).
  exists t; split; [exact E|].
  assert (L1 : 8 <= length (replicate 8 0%Z)) by (cbn; lia).
  assert (L2 : 8 <= length (replicate 9 1%Z)) by (cbn; lia).
  exact (proj1 (deterministic key80 t t plain (replicate 8 0%Z) (replicate 9 1%Z)
                  valid_key80 E E eq_refl plain_bytes L1 L2)).
Defined.

Lemma pad8_ok src :
  length src <= 8 -> Forall is_byte src ->
  length (pad8 src) = 8 /\ Forall is_byte (pad8 src).
Proof.
  intros HL HB; unfold pad8; split.
  - rewrite length_app, length_replicate; lia.
  - apply Forall_app; split; [assumption|].
    apply Forall_replicate; unfold is_byte; lia.
Qed.

(** C10: for a valid key, a source of fewer than 8 bytes and a destination
    of at least 8, [Encrypt] and [Decrypt] complete and overwrite exactly the
    first eight bytes of the destination, the rest staying as it was; the
    eight bytes written are the block the algorithm gives for the source
    padded with zero bytes to length 8, and the call on the padded source
    ends with the same destination. *)
Theorem short_source key src dst :
  valid_key key ->
  length src < 8 -> Forall is_byte src -> 8 <= length dst ->
  exists t, New key = Some (Some t, None)
    /\ (length (Spec.encrypt (rk t) (pad8 src)) = 8
        /\ Encrypt t dst src = Some (Spec.encrypt (rk t) (pad8 src) ++ drop 8 dst)
        /\ Encrypt t dst (pad8 src) = Encrypt t dst src)
    /\ (length (Spec.decrypt (rk t) (pad8 src)) = 8
        /\ Decrypt t dst src = Some (Spec.decrypt (rk t) (pad8 src) ++ drop 8 dst)
        /\ Decrypt t dst (pad8 src) = Decrypt t dst src).
Proof.
  intros HK HL HB HD.
  destruct (New_valid key HK) as (t & E & HR).
  destruct (pad8_ok src ltac:(lia) HB) as [PL PB].
  exists t; split; [exact E|]; split.
  - split; [apply encrypt_ok; assumption|].
    rewrite !Encrypt_ok, (pad8_full (pad8 src)) by (assumption || lia); auto.
  - split; [apply decrypt_ok; assumption|].
    rewrite !Decrypt_ok, (pad8_full (pad8 src)) by (assumption || lia); auto.
Qed.

Lemma short_source_witness :
  exists t, New key80 = Some (Some t, None)
    /\ (length (Spec.encrypt (rk t) (pad8 [0x01; 0x23; 0x45]%Z)) = 8
        /\ Encrypt t (replicate 9 255%Z) [0x01; 0x23; 0x45]%Z
           = Some (Spec.encrypt (rk t) (pad8 [0x01; 0x23; 0x45]%Z) ++ drop 8 (replicate 9 255%Z))
        /\ Encrypt t (replicate 9 255%Z) (pad8 [0x01; 0x23; 0x45]%Z)
           = Encrypt t (replicate 9 255%Z) [0x01; 0x23; 0x45]%Z)
    /\ (length (Spec.decrypt (rk t) (pad8 [0x01; 0x23; 0x45]%Z)) = 8
        /\ Decrypt t (replicate 9 255%Z) [0x01; 0x23; 0x45]%Z
           = Some (Spec.decrypt (rk t) (pad8 [0x01; 0x23; 0x45]%Z) ++ drop 8 (replicate 9 255%Z))
        /\ Decrypt t (replicate 9 255%Z) (pad8 [0x01; 0x23; 0x45]%Z)
           = Decrypt t (replicate 9 255%Z) [0x01; 0x23; 0x45]%Z).
Proof.
  apply (short_source key80 [0x01; 0x23; 0x45]%Z (replicate 9 255%Z));
    [ exact valid_key80 | cbn; lia | bytes | cbn; lia ].
Defined.

(** ** Further properties of the block transform *)

(** The repack loop on a destination of fewer than eight bytes indexes past
    its end. *)
Lemma repack_loop_short R src dst s X :
  length dst < 8 -> holds R src dst s X -> exec Block.repack_loop s = None.
Proof.
  intros HD (Hrk & Hsrc & Hdst & Hx & HL & HN).
  open_frame s; explode X.
  unfold Block.repack_loop, for_lt; cbn [flat_map seq Nat.sub app].
  do 8 (destruct dst as [|? dst];
        [repeat block_step idtac; apply exec_stuck; reflexivity|]).
  cbn in HD; lia.
Qed.

Lemma Encrypt_short_dst t dst src :
  rk_ok (rk t) -> length src <= 8 -> Forall is_byte src -> length dst < 8 ->
  Encrypt t dst src = None.
Proof.
  intros HR HL HB HD.
  destruct (unpack_loop_ok t dst src HL HB) as (s1 & E1 & H1).
  destruct (Encrypt_rounds_ok (rk t) src dst HR s1 _ H1) as (s2 & E2 & H2).
  unfold Encrypt, Block.Encrypt_body.
  rewrite (exec_seq _ _ _ _ E1), app_assoc, (exec_seq _ _ _ _ E2).
  rewrite (repack_loop_short _ _ _ _ _ HD H2); reflexivity.
Qed.

Lemma Decrypt_short_dst t dst src :
  rk_ok (rk t) -> length src <= 8 -> Forall is_byte src -> length dst < 8 ->
  Decrypt t dst src = None.
Proof.
  intros HR HL HB HD.
  destruct (unpack_loop_ok t dst src HL HB) as (s1 & E1 & H1).
  destruct (Decrypt_rounds_ok (rk t) src dst HR s1 _ H1) as (s2 & E2 & H2).
  unfold Decrypt, Block.Decrypt_body.
  rewrite (exec_seq _ _ _ _ E1), app_assoc, (exec_seq _ _ _ _ E2).
  rewrite (repack_loop_short _ _ _ _ _ HD H2); reflexivity.
Qed.

Lemma Encrypt_long_src t dst src : 8 < length src -> Encrypt t dst src = None.
Proof.
  intros H; unfold Encrypt, Block.Encrypt_body.
  rewrite (proj2 (proj2 (unpack_overflow t dst src _ H))); reflexivity.
Qed.

Lemma Decrypt_long_src t dst src : 8 < length src -> Decrypt t dst src = None.
Proof.
  intros H; unfold Decrypt, Block.Decrypt_body.
  rewrite (proj2 (proj2 (unpack_overflow t dst src _ H))); reflexivity.
Qed.

(** X1: for a valid key and an 8-byte source, [Decrypt] completes and the
    destination holds the block computed by the inverse steps: unpack, rounds
    36 down to 2 of Feistel step and inverse shuffle, round 1 of the Feistel
    step alone, repack. *)
Theorem Decrypt_steps key src dst :
  valid_key key ->
  length src = 8 -> Forall is_byte src -> length dst = 8 ->
  exists t, New key = Some (Some t, None)
            /\ Decrypt t dst src = Some (Spec.decrypt (rk t) src).
Proof.
  intros HK HL HB HD.
  destruct (New_valid key HK) as (t & E & HR).
  exists t; split; [exact E|].
  rewrite Decrypt_ok, pad8_full, drop_ge, app_nil_r by (assumption || lia); reflexivity.
Qed.

Lemma Decrypt_steps_witness :
  exists t, New key128 = Some (Some t, None)
            /\ Decrypt t (replicate 8 0%Z) plain = Some (Spec.decrypt (rk t) plain).
Proof.
  apply (Decrypt_steps key128 plain (replicate 8 0%Z));
    first [exact valid_key128 | exact plain_bytes | reflexivity].
Defined.

(** X2: on an instance built by [New], with a source of bytes, [Encrypt]
    and [Decrypt] complete exactly when the source has at most [BlockSize]
    bytes and the destination at least [BlockSize]; otherwise they panic. *)
Theorem transform_completes_iff key t dst src :
  valid_key key -> New key = Some (Some t, None) -> Forall is_byte src ->
  (is_Some (Encrypt t dst src)
   <-> (Z.of_nat (length src) <= BlockSize t <= Z.of_nat (length dst))%Z)
  /\ (is_Some (Decrypt t dst src)
   <-> (Z.of_nat (length src) <= BlockSize t <= Z.of_nat (length dst))%Z).
Proof.
  intros HK E HB.
  destruct (New_valid key HK) as (t' & E' & HR).
  assert (t' = t) by congruence; subst t'.
  unfold BlockSize.
  destruct (le_lt_dec (length src) 8) as [HS|HS];
    [destruct (le_lt_dec 8 (length dst)) as [HD|HD]|].
  - rewrite Encrypt_ok, Decrypt_ok by assumption.
    split; (split; [lia | eauto]).
  - rewrite Encrypt_short_dst, Decrypt_short_dst by assumption.
    split; (split; [intros [? [=]] | lia]).
  - rewrite Encrypt_long_src, Decrypt_long_src by assumption.
    split; (split; [intros [? [=]] | lia]).
Qed.

Lemma transform_completes_iff_witness :
  exists t, New key80 = Some (Some t, None)
    /\ (is_Some (Encrypt t (replicate 7 0%Z) plain)
        <-> (Z.of_nat (length plain) <= BlockSize t <= Z.of_nat (length (replicate 7 0%Z)))%Z).
Proof.
  destruct (New_valid key80 valid_key80) as (t & E & _).
  exists t; split; [exact E|].
  exact (proj1 (transform_completes_iff key80 t (replicate 7 0%Z) plain
                  valid_key80 E plain_bytes)).
Defined.

(** X3: on the instance built from a valid key, [Encrypt] is a bijection
    of the 8-byte blocks: its result is again eight bytes, two blocks with
    the same ciphertext are equal, and every block is the ciphertext of some
    block. *)
Theorem Encrypt_permutes_blocks key :
  valid_key key ->
  exists t, New key = Some (Some t, None)
    /\ (forall P dst, length P = 8 -> Forall is_byte P -> length dst = 8 ->
          exists C, Encrypt t dst P = Some C /\ length C = 8 /\ Forall is_byte C)
    /\ (forall P1 P2 dst1 dst2 C,
          length P1 = 8 -> Forall is_byte P1 -> length P2 = 8 -> Forall is_byte P2 ->
          length dst1 = 8 -> length dst2 = 8 ->
          Encrypt t dst1 P1 = Some C -> Encrypt t dst2 P2 = Some C -> P1 = P2)
    /\ (forall C dst, length C = 8 -> Forall is_byte C -> length dst = 8 ->
          exists P, length P = 8 /\ Forall is_byte P /\ Encrypt t dst P = Some C).
Proof.
  intros HK; destruct (New_valid key HK) as (t & E & HR).
  assert (Henc : forall P dst, length P = 8 -> Forall is_byte P -> length dst = 8 ->
                 Encrypt t dst P = Some (Spec.encrypt (rk t) P)).
  { intros P dst HL HB HD.
    rewrite Encrypt_ok, pad8_full, drop_ge, app_nil_r by (assumption || lia); reflexivity. }
  exists t; split; [exact E|]; conjs.
  - intros P dst HL HB HD; exists (Spec.encrypt (rk t) P).
    split; [apply Henc; assumption | apply encrypt_ok; assumption].
  - intros P1 P2 dst1 dst2 C L1 B1 L2 B2 D1 D2 E1 E2.
    rewrite Henc in E1, E2 by assumption.
    rewrite <- (decrypt_encrypt (rk t) P1), <- (decrypt_encrypt (rk t) P2) by assumption.
    congruence.
  - intros C dst HL HB HD; exists (Spec.decrypt (rk t) C).
    destruct (decrypt_ok (rk t) C HL HB) as [L B].
    split; [exact L|]; split; [exact B|].
    rewrite Henc, encrypt_decrypt by assumption; reflexivity.
Qed.

Lemma Encrypt_permutes_blocks_witness :
  exists t, New key80 = Some (Some t, None)
    /\ exists C, Encrypt t (replicate 8 0%Z) plain = Some C
                 /\ length C = 8 /\ Forall is_byte C.
Proof.
  destruct (Encrypt_permutes_blocks key80 valid_key80) as (t & E & H & _).
  exists t; split; [exact E|].
  apply (H plain (replicate 8 0%Z)); first [exact plain_bytes | reflexivity].
Defined.

(** ** The 128-bit key schedule refines the specification's *)

Lemma update128_ok i W :
  length W = 32 -> Forall nibble W ->
  length (Spec.update128 i W) = 32 /\ Forall nibble (Spec.update128 i W).
Proof.
  intros HL HN; explode W; split_Forall; cbn; split; [reflexivity|].
  pose proof (nibble_con_hi _ (RCON_small i)).
  nibs.
Qed.

Lemma round128_ok i s :
  i <= 36 -> length (Sched.wk s) = 32 -> Forall nibble (Sched.wk s) ->
  length (Sched.t_rk s) = 37 -> Forall (fun row => length row = 8) (Sched.t_rk s) ->
  exists s', exec (Sched.round128 i) s = Some s'
             /\ Sched.wk s' = Spec.update128 i (Sched.wk s)
             /\ Sched.t_rk s' = <[i := Spec.tap128 (Sched.wk s)]> (Sched.t_rk s)
             /\ Sched.key s' = Sched.key s.
Proof.
  intros Hi HL HN HRL HRR.
  destruct (lookup_lt_is_Some_2 (Sched.t_rk s) i) as [row Erow]; [lia|].
  pose proof (Forall_lookup_1 _ _ _ _ HRR Erow) as Hrow.
  destruct s as [R K W c t0 t1 t2 t3]; sched_unfold_all.
  explode W; split_Forall.
  unfold Sched.round128, Sched.tap128.
  erewrite exec_seq by (eapply taps_exec; [exact Erow | exact Hrow | reflexivity ..]).
  unfold Sched.shift_loop, for_lt; cbn [flat_map seq Nat.sub app Nat.mul Nat.add].
  sched_unfold.
  eexists; split.
  { do 39 sched_step. reflexivity. }
  sched_unfold; cbn; conjs; reflexivity.
Qed.

Lemma register128_S key n :
  Spec.register128 key (S n) = Spec.update128 (S n) (Spec.register128 key n).
Proof. unfold Spec.register128; rewrite seq_S, foldl_snoc; reflexivity. Qed.

Lemma register128_ok key n :
  length key = 16 -> Forall is_byte key ->
  length (Spec.register128 key n) = 32 /\ Forall nibble (Spec.register128 key n).
Proof.
  intros HL HB; induction n as [|n [IL IN]].
  - destruct (unpack_nibbles key HB) as [L N]; split; [|exact N].
    unfold Spec.register128; cbn [seq foldl]; rewrite L, HL; reflexivity.
  - rewrite register128_S; apply update128_ok; assumption.
Qed.

Lemma sched_unpack128_ok t key :
  length key = 16 -> Forall is_byte key ->
  exists s, exec (Sched.unpack_loop (length key)) (Sched.enter 32 t key) = Some s
            /\ Sched.wk s = Spec.unpack key
            /\ Sched.t_rk s = rk t /\ Sched.key s = key.
Proof.
  intros HL HB; explode key; split_Forall.
  unfold Sched.unpack_loop, for_lt, Sched.enter.
  cbn [length flat_map seq Nat.sub app replicate].
  eexists; split.
  { do 32 sched_step. reflexivity. }
  sched_unfold; cbn; bytes_to_nibbles; conjs; reflexivity.
Qed.

Lemma rounds128_ok t key n :
  length key = 16 -> Forall is_byte key ->
  length (rk t) = 37 -> Forall (fun row => length row = 8) (rk t) ->
  n <= 35 ->
  exists s,
    exec (Sched.unpack_loop (length key) ++ for_le 1 n Sched.round128)
         (Sched.enter 32 t key) = Some s
    /\ Sched.wk s = Spec.register128 key n
    /\ length (Sched.t_rk s) = 37
    /\ Forall (fun row => length row = 8) (Sched.t_rk s)
    /\ (forall i, 1 <= i <= n -> Sched.t_rk s !! i = Some (Spec.RK128 key i))
    /\ (forall i, i = 0 \/ n < i -> Sched.t_rk s !! i = rk t !! i).
Proof.
  intros HL HB HRL HRR; induction n as [|n IH]; intros Hn.
  - destruct (sched_unpack128_ok t key HL HB) as (s & E & Hwk & Hrk & _).
    exists s; unfold for_le; cbn [Nat.sub seq flat_map]; rewrite app_nil_r.
    rewrite Hrk; conjs; auto; intros; lia.
  - destruct IH as (s & E & Hwk & HsL & HsR & Hrows & Hrest); [lia|].
    destruct (register128_ok key n HL HB) as [WL WN].
    destruct (round128_ok (S n) s) as (s' & E' & Hwk' & Hrk' & _);
      rewrite ?Hwk; try assumption; try lia.
    exists s'; rewrite for_le_S, app_assoc, (exec_seq _ _ _ _ E).
    rewrite Hrk', Hwk', Hwk in *; conjs.
    + exact E'.
    + symmetry; apply register128_S.
    + rewrite length_insert; assumption.
    + apply Forall_insert; [assumption | reflexivity].
    + intros i Hi; destruct (decide (i = S n)) as [->|Hne].
      * rewrite list_lookup_insert_eq by lia.
        unfold Spec.RK128; replace (S n - 1) with n by lia; reflexivity.
      * rewrite list_lookup_insert_ne by lia; apply Hrows; lia.
    + intros i Hi; rewrite list_lookup_insert_ne by lia; apply Hrest; lia.
Qed.

Lemma tap128_ok i s :
  i <= 36 -> length (Sched.wk s) = 32 ->
  length (Sched.t_rk s) = 37 -> Forall (fun row => length row = 8) (Sched.t_rk s) ->
  exec (Sched.tap128 i) s
  = Some (Sched.set_rk s (<[i := Spec.tap128 (Sched.wk s)]> (Sched.t_rk s))).
Proof.
  intros Hi HL HRL HRR.
  destruct (lookup_lt_is_Some_2 (Sched.t_rk s) i) as [row Erow]; [lia|].
  pose proof (Forall_lookup_1 _ _ _ _ HRR Erow) as Hrow.
  destruct s as [R K W c t0 t1 t2 t3]; sched_unfold_all.
  explode W.
  unfold Sched.tap128.
  erewrite taps_exec; [reflexivity | exact Erow | exact Hrow | reflexivity ..].
Qed.

Lemma expandKeys128_ok t key :
  length key = 16 -> Forall is_byte key ->
  length (rk t) = 37 -> Forall (fun row => length row = 8) (rk t) ->
  exists t', expandKeys128 t key = Some t'
             /\ (forall i, 1 <= i <= 36 -> rk t' !! i = Some (Spec.RK128 key i))
             /\ rk t' !! 0 = rk t !! 0
             /\ length (rk t') = 37.
Proof.
  intros HL HB HRL HRR.
  destruct (rounds128_ok t key 35 HL HB HRL HRR (Nat.le_refl _))
    as (s & E & Hwk & HsL & HsR & Hrows & Hrest).
  destruct (register128_ok key 35 HL HB) as [WL WN].
  pose proof (tap128_ok 36 s) as E'; rewrite Hwk in E'.
  specialize (E' ltac:(lia) WL HsL HsR).
  eexists; unfold expandKeys128, Sched.expandKeys128_body.
  rewrite app_assoc, (exec_seq _ _ _ _ E), E'; cbv [mbind option_bind].
  split; [reflexivity|]; cbn [rk Sched.t_rk Sched.set_rk]; conjs.
  - intros i Hi; destruct (decide (i = 36)) as [->|Hne].
    + rewrite list_lookup_insert_eq by lia; reflexivity.
    + rewrite list_lookup_insert_ne by lia; apply Hrows; lia.
  - rewrite list_lookup_insert_ne by lia; apply Hrest; auto.
  - rewrite length_insert; assumption.
Qed.

(** X4: for a 16-byte key, [expandKeys128] unpacks the key into the
    32-nibble register; after n rounds the register is the specification's
    register after n updates (three non-linear mixes, round-constant
    injection, twisted rotation), RK[i] being the tap at positions
    2,3,12,15,17,18,28,31 of the register before the update of round i;
    RK[36] is the tap after the loop. *)
Theorem expandKeys128_schedule t key :
  length key = 16 -> Forall is_byte key ->
  length (rk t) = 37 -> Forall (fun row => length row = 8) (rk t) ->
  (forall n, n <= 35 ->
     exists s,
       exec (Sched.unpack_loop (length key) ++ for_le 1 n Sched.round128)
            (Sched.enter 32 t key) = Some s
       /\ Sched.wk s = Spec.register128 key n
       /\ forall i, 1 <= i <= n -> Sched.t_rk s !! i = Some (Spec.RK128 key i))
  /\ exists t', expandKeys128 t key = Some t'
                /\ forall i, 1 <= i <= 36 -> rk t' !! i = Some (Spec.RK128 key i).
Proof.
  intros HL HB HRL HRR; split.
  - intros n Hn.
    destruct (rounds128_ok t key n HL HB HRL HRR Hn) as (s & E & Hwk & _ & _ & Hrows & _).
    eauto.
  - destruct (expandKeys128_ok t key HL HB HRL HRR) as (t' & E & Hrows & _).
    eauto.
Qed.

Lemma zero_twine_shape :
  length (rk zero_twine) = 37 /\ Forall (fun row => length row = 8) (rk zero_twine).
Proof. split; [reflexivity | apply Forall_replicate; reflexivity]. Defined.

Lemma expandKeys128_schedule_witness :
  exists t', expandKeys128 zero_twine key128 = Some t'
             /\ forall i, 1 <= i <= 36 -> rk t' !! i = Some (Spec.RK128 key128 i).
Proof.
  exact (proj2 (expandKeys128_schedule zero_twine key128 eq_refl (proj2 valid_key128)
                  (proj1 zero_twine_shape) (proj2 zero_twine_shape))).
Defined.

(** ** Row 0 of the round keys *)

Lemma New_row0 key t :
  valid_key key -> New key = Some (Some t, None) ->
  rk t !! 0 = Some (replicate 8 0%Z).
Proof.
  intros [[HL|HL] HB] E.
  - destruct (New_80 key HL HB) as (t0 & E0 & X0 & _).
    destruct (expandKeys80_ok zero_twine key HL HB
                (proj1 zero_twine_shape) (proj2 zero_twine_shape)) as (t' & X' & _ & H0 & _).
    assert (t = t') by congruence; subst t'; rewrite H0; reflexivity.
  - destruct (New_128 key HL HB) as (t0 & E0 & X0 & _).
    destruct (expandKeys128_ok zero_twine key HL HB
                (proj1 zero_twine_shape) (proj2 zero_twine_shape)) as (t' & X' & _ & H0 & _).
    assert (t = t') by congruence; subst t'; rewrite H0; reflexivity.
Qed.

Ltac same_binds :=
  repeat match goal with
         | |- context [?m ≫= _] => destruct m; cbn
         end;
  reflexivity.

Ltac enter_ignores :=
  intros r0 [R sr ds x xn]; unfold poke_row0; cbn.

Lemma ignores_unpack_hi i : ignores_row0 (Block.unpack_hi i).
Proof. enter_ignores; unfold Block.unpack_hi; cbn; same_binds. Qed.

Lemma ignores_unpack_lo i : ignores_row0 (Block.unpack_lo i).
Proof. enter_ignores; unfold Block.unpack_lo; cbn; same_binds. Qed.

Lemma ignores_feistel i j : 1 <= i -> ignores_row0 (Block.feistel i j).
Proof.
  intros Hi; enter_ignores; unfold Block.feistel; cbn.
  rewrite list_lookup_insert_ne by lia; same_binds.
Qed.

Lemma ignores_decl_xnext : ignores_row0 Block.decl_xnext.
Proof. enter_ignores; reflexivity. Qed.

Lemma ignores_shuffle h : ignores_row0 (Block.shuffle h).
Proof. enter_ignores; unfold Block.shuffle; cbn; same_binds. Qed.

Lemma ignores_unshuffle h : ignores_row0 (Block.unshuffle h).
Proof. enter_ignores; unfold Block.unshuffle; cbn; same_binds. Qed.

Lemma ignores_x_gets_xnext : ignores_row0 Block.x_gets_xnext.
Proof. enter_ignores; reflexivity. Qed.

Lemma ignores_repack i : ignores_row0 (Block.repack i).
Proof. enter_ignores; unfold Block.repack; cbn; same_binds. Qed.

Lemma Forall_for {F : Type} (P : stmt F -> Prop) (body : nat -> list (stmt F)) idx :
  (forall i, In i idx -> Forall P (body i)) -> Forall P (flat_map body idx).
Proof. intros H; apply Forall_flat_map, List.Forall_forall, H. Qed.

Lemma ignores_feistel_loop i : 1 <= i -> Forall ignores_row0 (Block.feistel_loop i).
Proof.
  intros Hi; apply Forall_for; intros j _.
  repeat constructor; apply ignores_feistel, Hi.
Qed.

Lemma ignores_unpack_loop n : Forall ignores_row0 (Block.unpack_loop n).
Proof.
  apply Forall_for; intros i _.
  repeat constructor; [apply ignores_unpack_hi | apply ignores_unpack_lo].
Qed.

Lemma ignores_repack_loop : Forall ignores_row0 Block.repack_loop.
Proof. apply Forall_for; intros i _; repeat constructor; apply ignores_repack. Qed.

Lemma ignores_Encrypt_body n : Forall ignores_row0 (Block.Encrypt_body n).
Proof.
  unfold Block.Encrypt_body.
  apply Forall_app; split; [apply ignores_unpack_loop|].
  apply Forall_app; split;
    [|apply Forall_app; split; [apply ignores_feistel_loop; lia | apply ignores_repack_loop]].
  apply Forall_for; intros i Hi%in_seq; unfold Block.Encrypt_round.
  apply Forall_app; split; [apply ignores_feistel_loop; lia|].
  apply List.Forall_cons; [apply ignores_decl_xnext|].
  apply Forall_app; split; [|repeat constructor; apply ignores_x_gets_xnext].
  apply Forall_for; intros h _; repeat constructor; apply ignores_shuffle.
Qed.

Lemma ignores_Decrypt_body n : Forall ignores_row0 (Block.Decrypt_body n).
Proof.
  unfold Block.Decrypt_body.
  apply Forall_app; split; [apply ignores_unpack_loop|].
  apply Forall_app; split;
    [|apply Forall_app; split; [apply ignores_feistel_loop; lia | apply ignores_repack_loop]].
  apply Forall_for; intros i Hi%in_rev%in_seq; unfold Block.Decrypt_round.
  apply Forall_app; split; [apply ignores_feistel_loop; lia|].
  apply List.Forall_cons; [apply ignores_decl_xnext|].
  apply Forall_app; split; [|repeat constructor; apply ignores_x_gets_xnext].
  apply Forall_for; intros h _; repeat constructor; apply ignores_unshuffle.
Qed.

Lemma exec_ignores p :
  Forall ignores_row0 p ->
  forall r0 s, exec p (poke_row0 r0 s) = poke_row0 r0 <$> exec p s.
Proof.
  induction 1 as [|c p Hc _ IH]; intros r0 s; cbn; [reflexivity|].
  rewrite Hc; destruct (c s) as [s'|]; cbn; [apply IH | reflexivity].
Qed.

(** X5: row 0 of the round keys is outside the cipher: [New] leaves it
    zero, and neither [Encrypt] nor [Decrypt] reads it -- with any other
    contents in row 0 both calls end the same way, panic included. *)
Theorem row0_unused key t r0 dst src :
  valid_key key -> New key = Some (Some t, None) ->
  rk t !! 0 = Some (replicate 8 0%Z)
  /\ Encrypt (mkTwine (<[0 := r0]> (rk t))) dst src = Encrypt t dst src
  /\ Decrypt (mkTwine (<[0 := r0]> (rk t))) dst src = Decrypt t dst src.
Proof.
  intros HK E; split; [apply (New_row0 key t HK E)|].
  unfold Encrypt, Decrypt.
  change (Block.enter (mkTwine (<[0 := r0]> (rk t))) dst src)
    with (poke_row0 r0 (Block.enter t dst src)).
  rewrite !exec_ignores by (apply ignores_Encrypt_body || apply ignores_Decrypt_body).
  split.
  - destruct (exec (Block.Encrypt_body (length src)) (Block.enter t dst src)); reflexivity.
  - destruct (exec (Block.Decrypt_body (length src)) (Block.enter t dst src)); reflexivity.
Qed.

Lemma row0_unused_witness :
  exists t, New key80 = Some (Some t, None)
    /\ rk t !! 0 = Some (replicate 8 0%Z)
    /\ Encrypt (mkTwine (<[0 := replicate 8 255%Z]> (rk t))) (replicate 8 0%Z) plain
       = Encrypt t (replicate 8 0%Z) plain.
Proof.
  destruct (New_valid key80 valid_key80) as (t & E & _).
  exists t; split; [exact E|].
  destruct (row0_unused key80 t (replicate 8 255%Z) (replicate 8 0%Z) plain valid_key80 E)
    as (H0 & HE & _).
  split; [exact H0 | exact HE].
Defined.

(** ** The block state stays in nibbles *)

Lemma shuf_lookup h : h < 16 -> exists d, shuf !! h = Some d /\ d < 16.
Proof.
  intros H; do 16 (destruct h as [|h]; [eexists; split; [reflexivity | lia]|]); lia.
Qed.

Lemma shufinv_lookup h : h < 16 -> exists d, shufinv !! h = Some d /\ d < 16.
Proof.
  intros H; do 16 (destruct h as [|h]; [eexists; split; [reflexivity | lia]|]); lia.
Qed.

Section BlockInvariant.
Variables (R : list (list Z)) (src0 : list Z).
Hypothesis HR : rk_ok R.
Hypothesis Hsrc : Forall is_byte src0.

Local Abbreviation binv := (block_inv R src0).

Ltac enter_bkeeps s :=
  intros s (HK & HS & HD & HXL & HXN & HYL & HYN);
  destruct s as [R' sr ds x xn];
  cbn [Block.t_rk Block.src Block.dst Block.x Block.xnext] in *;
  subst R' sr.

Ltac leave_bkeeps :=
  eexists; split; [reflexivity|];
  unfold block_inv; cbn; conjs;
  try assumption; try reflexivity; rewrite ?length_insert; try assumption.

Lemma bkeeps_unpack_hi i :
  i < length src0 -> i < 8 -> keeps binv (Block.unpack_hi i).
Proof.
  intros Hi H8; enter_bkeeps s.
  destruct (lookup_lt_is_Some_2 src0 i Hi) as [b Eb].
  pose proof (Forall_lookup_1 _ _ _ _ Hsrc Eb) as Hb.
  unfold Block.unpack_hi; cbn; rewrite Eb; cbn.
  rewrite store_lt by lia; cbn; leave_bkeeps.
  apply Forall_insert; [assumption|].
  rewrite (proj1 (byte_hi b Hb)); apply byte_hi, Hb.
Qed.

Lemma bkeeps_unpack_lo i :
  i < length src0 -> i < 8 -> keeps binv (Block.unpack_lo i).
Proof.
  intros Hi H8; enter_bkeeps s.
  destruct (lookup_lt_is_Some_2 src0 i Hi) as [b Eb].
  pose proof (Forall_lookup_1 _ _ _ _ Hsrc Eb) as Hb.
  unfold Block.unpack_lo; cbn; rewrite Eb; cbn.
  rewrite store_lt by lia; cbn; leave_bkeeps.
  apply Forall_insert; [assumption|].
  rewrite (proj1 (byte_lo b Hb)); apply byte_lo, Hb.
Qed.

Lemma bkeeps_feistel i j : i <= 36 -> j < 8 -> keeps binv (Block.feistel i j).
Proof.
  intros Hi Hj; enter_bkeeps s.
  destruct (rk_ok_row R i HR Hi) as (row & Erow & _ & HrowL & HrowN).
  destruct (lookup_lt_is_Some_2 x (2 * j)) as [a Ea]; [lia|].
  destruct (lookup_lt_is_Some_2 x (2 * j + 1)) as [b Eb]; [lia|].
  destruct (lookup_lt_is_Some_2 row j) as [k Ek]; [lia|].
  pose proof (Forall_lookup_1 _ _ _ _ HXN Ea) as Ha.
  pose proof (Forall_lookup_1 _ _ _ _ HXN Eb) as Hb.
  pose proof (Forall_lookup_1 _ _ _ _ HrowN Ek) as Hk.
  unfold Block.feistel; cbn [Block.x Block.t_rk].
  rewrite Ea; cbn [mbind option_bind]; rewrite Erow; cbn [mbind option_bind].
  rewrite Ek; cbn [mbind option_bind].
  rewrite sbox_lookup by auto with nib; cbn [mbind option_bind].
  rewrite Eb; cbn [mbind option_bind].
  rewrite store_lt by lia; cbn [mbind option_bind]; leave_bkeeps.
  apply Forall_insert; auto with nib.
Qed.

Lemma bkeeps_decl_xnext : keeps binv Block.decl_xnext.
Proof.
  enter_bkeeps s; unfold Block.decl_xnext; leave_bkeeps.
  nibs.
Qed.

Lemma bkeeps_shuffle h : h < 16 -> keeps binv (Block.shuffle h).
Proof.
  intros Hh; enter_bkeeps s.
  destruct (shuf_lookup h Hh) as (d & Ed & Hd).
  destruct (lookup_lt_is_Some_2 x h) as [v Ev]; [lia|].
  pose proof (Forall_lookup_1 _ _ _ _ HXN Ev) as Hv.
  unfold Block.shuffle; cbn [Block.x Block.xnext].
  rewrite Ed; cbn [mbind option_bind]; rewrite Ev; cbn [mbind option_bind].
  rewrite store_lt by lia; cbn [mbind option_bind]; leave_bkeeps.
  apply Forall_insert; assumption.
Qed.

Lemma bkeeps_unshuffle h : h < 16 -> keeps binv (Block.unshuffle h).
Proof.
  intros Hh; enter_bkeeps s.
  destruct (shufinv_lookup h Hh) as (d & Ed & Hd).
  destruct (lookup_lt_is_Some_2 x h) as [v Ev]; [lia|].
  pose proof (Forall_lookup_1 _ _ _ _ HXN Ev) as Hv.
  unfold Block.unshuffle; cbn [Block.x Block.xnext].
  rewrite Ed; cbn [mbind option_bind]; rewrite Ev; cbn [mbind option_bind].
  rewrite store_lt by lia; cbn [mbind option_bind]; leave_bkeeps.
  apply Forall_insert; assumption.
Qed.

Lemma bkeeps_x_gets_xnext : keeps binv Block.x_gets_xnext.
Proof. enter_bkeeps s; unfold Block.x_gets_xnext; leave_bkeeps. Qed.

Lemma bkeeps_repack i : i < 8 -> keeps binv (Block.repack i).
Proof.
  intros Hi; enter_bkeeps s.
  destruct (lookup_lt_is_Some_2 x (2 * i)) as [a Ea]; [lia|].
  destruct (lookup_lt_is_Some_2 x (2 * i + 1)) as [b Eb]; [lia|].
  unfold Block.repack; cbn [Block.x Block.dst].
  rewrite Ea; cbn [mbind option_bind]; rewrite Eb; cbn [mbind option_bind].
  rewrite store_lt by lia; cbn [mbind option_bind]; leave_bkeeps.
Qed.

Lemma bkeeps_feistel_loop i : i <= 36 -> Forall (keeps binv) (Block.feistel_loop i).
Proof.
  intros Hi; apply Forall_for; intros j Hj%in_seq.
  repeat constructor; apply bkeeps_feistel; lia.
Qed.

Lemma bkeeps_unpack_loop :
  length src0 <= 8 -> Forall (keeps binv) (Block.unpack_loop (length src0)).
Proof.
  intros HL; apply Forall_for; intros i Hi%in_seq.
  repeat constructor; [apply bkeeps_unpack_hi | apply bkeeps_unpack_lo]; lia.
Qed.

Lemma bkeeps_repack_loop : Forall (keeps binv) Block.repack_loop.
Proof.
  apply Forall_for; intros i Hi%in_seq; repeat constructor; apply bkeeps_repack; lia.
Qed.

Lemma bkeeps_Encrypt_body :
  length src0 <= 8 -> Forall (keeps binv) (Block.Encrypt_body (length src0)).
Proof.
  intros HL; unfold Block.Encrypt_body.
  apply Forall_app; split; [apply bkeeps_unpack_loop, HL|].
  apply Forall_app; split;
    [|apply Forall_app; split; [apply bkeeps_feistel_loop; lia | apply bkeeps_repack_loop]].
  apply Forall_for; intros i Hi%in_seq; unfold Block.Encrypt_round.
  apply Forall_app; split; [apply bkeeps_feistel_loop; lia|].
  apply List.Forall_cons; [apply bkeeps_decl_xnext|].
  apply Forall_app; split; [|repeat constructor; apply bkeeps_x_gets_xnext].
  apply Forall_for; intros h Hh%in_seq; repeat constructor; apply bkeeps_shuffle; lia.
Qed.

Lemma bkeeps_Decrypt_body :
  length src0 <= 8 -> Forall (keeps binv) (Block.Decrypt_body (length src0)).
Proof.
  intros HL; unfold Block.Decrypt_body.
  apply Forall_app; split; [apply bkeeps_unpack_loop, HL|].
  apply Forall_app; split;
    [|apply Forall_app; split; [apply bkeeps_feistel_loop; lia | apply bkeeps_repack_loop]].
  apply Forall_for; intros i Hi%in_rev%in_seq; unfold Block.Decrypt_round.
  apply Forall_app; split; [apply bkeeps_feistel_loop; lia|].
  apply List.Forall_cons; [apply bkeeps_decl_xnext|].
  apply Forall_app; split; [|repeat constructor; apply bkeeps_x_gets_xnext].
  apply Forall_for; intros h Hh%in_seq; repeat constructor; apply bkeeps_unshuffle; lia.
Qed.
End BlockInvariant.

Lemma block_inv_enter t dst src :
  8 <= length dst -> block_inv (rk t) src (Block.enter t dst src).
Proof.
  intros HD; unfold block_inv, Block.enter; cbn [Block.t_rk Block.src Block.dst Block.x Block.xnext].
  conjs; try reflexivity; try assumption; apply Forall_replicate, nibble_0.
Qed.

(** X6: on an instance built by [New], with a source of at most eight bytes
    and a destination of at least eight, no assignment of [Encrypt] or
    [Decrypt] panics and after every one of them the block state [x] is
    sixteen values in 0..15. *)
Theorem block_state_nibbles key t dst src :
  valid_key key -> New key = Some (Some t, None) ->
  length src <= 8 -> Forall is_byte src -> 8 <= length dst ->
  (forall n, exists s,
      exec (take n (Block.Encrypt_body (length src))) (Block.enter t dst src) = Some s
      /\ length (Block.x s) = 16 /\ Forall nibble (Block.x s))
  /\ (forall n, exists s,
      exec (take n (Block.Decrypt_body (length src))) (Block.enter t dst src) = Some s
      /\ length (Block.x s) = 16 /\ Forall nibble (Block.x s)).
Proof.
  intros HK E HL HB HD.
  destruct (New_valid key HK) as (t' & E' & HR).
  assert (t' = t) by congruence; subst t'.
  split; intros n.
  - destruct (exec_prefix (block_inv (rk t) src) (Block.Encrypt_body (length src)))
      with (n := n) (s := Block.enter t dst src) as (s & Es & HI).
    { apply bkeeps_Encrypt_body; assumption. }
    { apply block_inv_enter, HD. }
    exists s; split; [exact Es|]; split; apply HI.
  - destruct (exec_prefix (block_inv (rk t) src) (Block.Decrypt_body (length src)))
      with (n := n) (s := Block.enter t dst src) as (s & Es & HI).
    { apply bkeeps_Decrypt_body; assumption. }
    { apply block_inv_enter, HD. }
    exists s; split; [exact Es|]; split; apply HI.
Qed.

Lemma block_state_nibbles_witness :
  exists t, New key128 = Some (Some t, None)
    /\ forall n, exists s,
         exec (take n (Block.Encrypt_body (length plain)))
              (Block.enter t (replicate 8 0%Z) plain) = Some s
         /\ length (Block.x s) = 16 /\ Forall nibble (Block.x s).
Proof.
  destruct (New_valid key128 valid_key128) as (t & E & _).
  exists t; split; [exact E|].
  assert (L1 : length plain <= 8) by (cbn; lia).
  assert (L2 : 8 <= length (replicate 8 0%Z)) by (cbn; lia).
  exact (proj1 (block_state_nibbles key128 t (replicate 8 0%Z) plain
                  valid_key128 E L1 plain_bytes L2)).
Defined.

(** ** Overlapping source and destination *)

Lemma exec_lockstep {A B : Type} (R : A -> B -> Prop) pa pb :
  Forall2 (lockstep R) pa pb ->
  forall a b, R a b -> option_Forall2 R (exec pa a) (exec pb b).
Proof.
  induction 1 as [|ca cb pa pb Hc _ IH]; intros a b Hab; cbn.
  - constructor; assumption.
  - destruct (Hc a b Hab) as [a' b' H'|]; [apply IH, H' | constructor].
Qed.

Lemma lockstep_for {A B : Type} (R : A -> B -> Prop)
    (fa : nat -> list (stmt A)) (fb : nat -> list (stmt B)) idx :
  (forall i, Forall2 (lockstep R) (fa i) (fb i)) ->
  Forall2 (lockstep R) (flat_map fa idx) (flat_map fb idx).
Proof.
  intros H; induction idx as [|i idx IH]; cbn; [constructor|].
  apply Forall2_app; [apply H | exact IH].
Qed.

Lemma load_view m sl i : load m sl i = view m sl !! i.
Proof.
  unfold load, view; destruct (Nat.ltb_spec i (len sl)).
  - rewrite lookup_take_lt, lookup_drop by assumption; reflexivity.
  - rewrite lookup_take_ge by assumption; reflexivity.
Qed.

Lemma view_length m sl : off sl + len sl <= length m -> length (view m sl) = len sl.
Proof. intros H; unfold view; rewrite length_take, length_drop; lia. Qed.

Lemma splice_view m sl : off sl + len sl <= length m -> splice m (off sl) (view m sl) = m.
Proof.
  intros H; unfold splice; rewrite view_length by assumption; unfold view.
  transitivity (take (off sl) m ++ drop (off sl) m); [f_equal | apply take_drop].
  rewrite <- drop_drop; apply take_drop.
Qed.

(** Writing inside the destination window of a spliced memory. *)
Lemma poke_splice m o n d i v :
  o + n <= length m -> length d = n ->
  poke (splice m o d) (mkSlice o n) i v = splice m o <$> store d i v.
Proof.
  intros Hm Hd; unfold poke, store, splice; cbn [off len]; rewrite Hd.
  destruct (Nat.ltb_spec i n) as [Hi|Hi]; [|reflexivity].
  assert (Ho : length (take o m) = o) by (rewrite length_take; lia).
  assert (HL : (o + i <? length (take o m ++ d ++ drop (o + n) m)) = true).
  { apply Nat.ltb_lt; rewrite !length_app, Ho, Hd; lia. }
  rewrite HL; cbn; f_equal.
  rewrite length_insert, Hd.
  rewrite <- Ho at 1; rewrite insert_app_r, insert_app_l by lia; reflexivity.
Qed.

Section SharedSimulation.
Variables (m0 : list Z) (srcS dstS : slice).
Hypothesis Hdst : off dstS + len dstS <= length m0.
Variable P : list Z -> list Z -> Prop.

Local Abbreviation simP := (sim m0 srcS dstS P).
Local Abbreviation simA := (sim m0 srcS dstS (untouched m0 dstS)).
Local Abbreviation simW := (sim m0 srcS dstS (written m0 dstS)).

Ltac enter_lock :=
  intros [R m sr ds x xn] [R' sr' ds' x' xn'] (H1 & H2 & H3 & H4 & H5 & H6 & H7);
  cbn [Shared.t_rk Shared.mem Shared.src Shared.dst Shared.x Shared.xnext
       Block.t_rk Block.src Block.dst Block.x Block.xnext] in *;
  subst R' x' xn' sr ds sr'.

Ltac lock_binds :=
  repeat match goal with
         | |- context [?m ≫= _] => destruct m; cbn [mbind option_bind]
         end;
  first [ apply None_Forall2
        | apply Some_Forall2; unfold sim; cbn; conjs; auto ].

Lemma lock_feistel i j : lockstep simP (Shared.feistel i j) (Block.feistel i j).
Proof. enter_lock; unfold Shared.feistel, Block.feistel; cbn; lock_binds. Qed.

Lemma lock_decl_xnext : lockstep simP Shared.decl_xnext Block.decl_xnext.
Proof. enter_lock; unfold Shared.decl_xnext, Block.decl_xnext; cbn; lock_binds. Qed.

Lemma lock_shuffle h : lockstep simP (Shared.shuffle h) (Block.shuffle h).
Proof. enter_lock; unfold Shared.shuffle, Block.shuffle; cbn; lock_binds. Qed.

Lemma lock_unshuffle h : lockstep simP (Shared.unshuffle h) (Block.unshuffle h).
Proof. enter_lock; unfold Shared.unshuffle, Block.unshuffle; cbn; lock_binds. Qed.

Lemma lock_x_gets_xnext : lockstep simP Shared.x_gets_xnext Block.x_gets_xnext.
Proof. enter_lock; unfold Shared.x_gets_xnext, Block.x_gets_xnext; cbn; lock_binds. Qed.

Lemma lock_unpack_hi i : lockstep simA (Shared.unpack_hi i) (Block.unpack_hi i).
Proof.
  enter_lock; destruct H7 as [-> ->].
  unfold Shared.unpack_hi, Block.unpack_hi; cbn; rewrite load_view.
  lock_binds; split; reflexivity.
Qed.

Lemma lock_unpack_lo i : lockstep simA (Shared.unpack_lo i) (Block.unpack_lo i).
Proof.
  enter_lock; destruct H7 as [-> ->].
  unfold Shared.unpack_lo, Block.unpack_lo; cbn; rewrite load_view.
  lock_binds; split; reflexivity.
Qed.

Lemma lock_repack i : lockstep simW (Shared.repack i) (Block.repack i).
Proof.
  enter_lock; destruct H7 as [-> HL].
  unfold Shared.repack, Block.repack.
  cbn [Shared.x Shared.mem Shared.dst Block.x Block.dst].
  destruct (x !! (2 * i)) as [a|]; cbn [mbind option_bind]; [|constructor].
  destruct (x !! (2 * i + 1)) as [b|]; cbn [mbind option_bind]; [|constructor].
  destruct dstS as [o n]; cbn [off len] in *.
  rewrite (poke_splice m0 o n ds' i _ Hdst HL).
  unfold store; destruct (Nat.ltb_spec i (length ds')); cbn; constructor.
  unfold sim, written; cbn; conjs; auto.
  rewrite length_insert; assumption.
Qed.

Lemma lock_feistel_loop i :
  Forall2 (lockstep simP) (Shared.feistel_loop i) (Block.feistel_loop i).
Proof. apply lockstep_for; intros j; apply Forall2_cons; [apply lock_feistel | apply Forall2_nil]. Qed.

Lemma lock_Encrypt_round i :
  Forall2 (lockstep simP) (Shared.Encrypt_round i) (Block.Encrypt_round i).
Proof.
  apply Forall2_app; [apply lock_feistel_loop|].
  apply Forall2_cons; [apply lock_decl_xnext|].
  apply Forall2_app; [|apply Forall2_cons; [apply lock_x_gets_xnext | apply Forall2_nil]].
  apply lockstep_for; intros h; apply Forall2_cons; [apply lock_shuffle | apply Forall2_nil].
Qed.

Lemma lock_Decrypt_round i :
  Forall2 (lockstep simP) (Shared.Decrypt_round i) (Block.Decrypt_round i).
Proof.
  apply Forall2_app; [apply lock_feistel_loop|].
  apply Forall2_cons; [apply lock_decl_xnext|].
  apply Forall2_app; [|apply Forall2_cons; [apply lock_x_gets_xnext | apply Forall2_nil]].
  apply lockstep_for; intros h; apply Forall2_cons; [apply lock_unshuffle | apply Forall2_nil].
Qed.

Lemma lock_unpack_loop n :
  Forall2 (lockstep simA) (Shared.unpack_loop n) (Block.unpack_loop n).
Proof.
  apply lockstep_for; intros i.
  apply Forall2_cons; [apply lock_unpack_hi|].
  apply Forall2_cons; [apply lock_unpack_lo | apply Forall2_nil].
Qed.

Lemma lock_repack_loop :
  Forall2 (lockstep simW) Shared.repack_loop Block.repack_loop.
Proof.
  apply lockstep_for; intros i; apply Forall2_cons; [apply lock_repack | apply Forall2_nil].
Qed.
End SharedSimulation.

Lemma sim_begin_writes m0 srcS dstS sh sb :
  off dstS + len dstS <= length m0 ->
  sim m0 srcS dstS (untouched m0 dstS) sh sb ->
  sim m0 srcS dstS (written m0 dstS) sh sb.
Proof.
  intros Hd (H1 & H2 & H3 & H4 & H5 & H6 & Hm & Hv).
  unfold sim, written; conjs; auto.
  - rewrite Hm, Hv; symmetry; apply splice_view, Hd.
  - rewrite Hv; apply view_length, Hd.
Qed.

(** A body made of an unpacking, rounds on the state and the repacking. *)
Lemma exec_shared t m dstS srcS roundsH roundsB :
  off srcS + len srcS <= length m -> off dstS + len dstS <= length m ->
  (forall P, Forall2 (lockstep (sim m srcS dstS P)) roundsH roundsB) ->
  (s ← exec (Shared.unpack_loop (len srcS) ++ roundsH ++ Shared.repack_loop)
            (Shared.enter t m dstS srcS);
   Some (Shared.mem s))
  = (s ← exec (Block.unpack_loop (length (view m srcS)) ++ roundsB ++ Block.repack_loop)
              (Block.enter t (view m dstS) (view m srcS));
     Some (splice m (off dstS) (Block.dst s))).
Proof.
  intros Hs Hd Hrounds; rewrite view_length by assumption.
  assert (H0 : sim m srcS dstS (untouched m dstS)
                 (Shared.enter t m dstS srcS)
                 (Block.enter t (view m dstS) (view m srcS))).
  { unfold sim, untouched; cbn; conjs; reflexivity. }
  rewrite (app_assoc (Shared.unpack_loop _)), (app_assoc (Block.unpack_loop _)).
  rewrite (exec_app (Shared.unpack_loop _ ++ roundsH)),
          (exec_app (Block.unpack_loop _ ++ roundsB)).
  destruct (exec_lockstep _ _ _
              (Forall2_app (lock_unpack_loop m srcS dstS (len srcS))
                           (Hrounds (untouched m dstS))) _ _ H0)
    as [sh sb H1|]; [|reflexivity].
  cbn [mbind option_bind].
  apply (sim_begin_writes _ _ _ _ _ Hd) in H1.
  destruct (exec_lockstep _ _ _ (lock_repack_loop m srcS dstS Hd) _ _ H1)
    as [sh' sb' H2|]; [|reflexivity].
  cbn [mbind option_bind]; f_equal; apply H2.
Qed.

(** The transforms over shared memory against those on separate copies. *)
Lemma shared_transforms t m dstS srcS :
  off srcS + len srcS <= length m -> off dstS + len dstS <= length m ->
  Shared.Encrypt t m dstS srcS
  = (d ← Encrypt t (view m dstS) (view m srcS); Some (splice m (off dstS) d))
  /\ Shared.Decrypt t m dstS srcS
  = (d ← Decrypt t (view m dstS) (view m srcS); Some (splice m (off dstS) d)).
Proof.
  intros Hs Hd; unfold Shared.Encrypt, Shared.Decrypt, Encrypt, Decrypt.
  unfold Shared.Encrypt_body, Shared.Decrypt_body, Block.Encrypt_body, Block.Decrypt_body.
  rewrite !(app_assoc (for_le _ _ _)), !(app_assoc (for_down _ _ _)).
  split.
  - rewrite (exec_shared t m dstS srcS _ (for_le 1 35 Block.Encrypt_round ++ Block.feistel_loop 36))
      by first [ assumption
               | intros P; apply Forall2_app;
                 [apply lockstep_for, lock_Encrypt_round | apply lock_feistel_loop] ].
    destruct (exec _ (Block.enter _ _ _)); reflexivity.
  - rewrite (exec_shared t m dstS srcS _ (for_down 36 2 Block.Decrypt_round ++ Block.feistel_loop 1))
      by first [ assumption
               | intros P; apply Forall2_app;
                 [apply lockstep_for, lock_Decrypt_round | apply lock_feistel_loop] ].
    destruct (exec _ (Block.enter _ _ _)); reflexivity.
Qed.

(** X7: with [dst] and [src] as slices of one memory, overlapping in any
    way or not at all, [Encrypt] and [Decrypt] end as they do on separate
    copies of the two slices: they panic in the same cases, and otherwise the
    memory afterwards is the memory before with the resulting destination
    bytes written at the destination's offset.  The whole source is read
    before the first byte of the destination is written. *)
Theorem aliasing_is_harmless t m dstS srcS :
  off srcS + len srcS <= length m -> off dstS + len dstS <= length m ->
  Shared.Encrypt t m dstS srcS
  = (d ← Encrypt t (view m dstS) (view m srcS); Some (splice m (off dstS) d))
  /\ Shared.Decrypt t m dstS srcS
  = (d ← Decrypt t (view m dstS) (view m srcS); Some (splice m (off dstS) d)).
Proof. exact (shared_transforms t m dstS srcS). Qed.

Lemma aliasing_is_harmless_witness :
  exists t, New key80 = Some (Some t, None)
    /\ Shared.Encrypt t (plain ++ plain) (mkSlice 4 8) (mkSlice 0 8)
       = Some (splice (plain ++ plain) 4 (Spec.encrypt (rk t) plain)).
Proof.
  destruct (New_valid key80 valid_key80) as (t & E & HR).
  exists t; split; [exact E|].
  assert (L1 : off (mkSlice 0 8) + len (mkSlice 0 8) <= length (plain ++ plain))
    by (cbn; lia).
  assert (L2 : off (mkSlice 4 8) + len (mkSlice 4 8) <= length (plain ++ plain))
    by (cbn; lia).
  rewrite (proj1 (aliasing_is_harmless t (plain ++ plain) (mkSlice 4 8) (mkSlice 0 8) L1 L2)).
  change (view (plain ++ plain) (mkSlice 0 8)) with plain.
  assert (L3 : length plain <= 8) by (cbn; lia).
  assert (L4 : 8 <= length (view (plain ++ plain) (mkSlice 4 8))) by (cbn; lia).
  rewrite (Encrypt_ok t _ plain HR L3 plain_bytes L4).
  reflexivity.
Defined.

Lemma view_splice m o d :
  o + length d <= length m -> view (splice m o d) (mkSlice o (length d)) = d.
Proof.
  intros H; unfold view, splice; cbn [off len].
  rewrite drop_app_length' by (rewrite length_take; lia).
  apply take_app_length.
Qed.

Lemma splice_splice m o d d' :
  o + length d <= length m -> length d' = length d ->
  splice (splice m o d) o d' = splice m o d'.
Proof.
  intros H HL; unfold splice.
  assert (Ho : o = length (take o m)) by (rewrite length_take; lia).
  rewrite take_app_length' by exact Ho.
  do 2 f_equal; rewrite HL.
  rewrite (drop_app_add' _ _ o) by exact Ho.
  rewrite drop_app_length; reflexivity.
Qed.

Lemma splice_length m o d :
  o + length d <= length m -> length (splice m o d) = length m.
Proof.
  intros H; unfold splice; rewrite !length_app, length_take, length_drop; lia.
Qed.

Lemma view_bytes m sl : Forall is_byte m -> Forall is_byte (view m sl).
Proof. intros H; unfold view; apply Forall_take, Forall_drop, H. Qed.

(** X8: encryption in place.  For a valid key and any block of eight bytes
    inside a buffer, [Encrypt] with [dst] and [src] both that block replaces
    it by its ciphertext -- the one the steps of the specification give for
    the block -- and leaves the other bytes of the buffer; [Decrypt] in place
    on the result restores the buffer. *)
Theorem in_place_round_trip key m o :
  valid_key key -> Forall is_byte m -> o + 8 <= length m ->
  exists t, New key = Some (Some t, None)
    /\ exists m',
         Shared.Encrypt t m (mkSlice o 8) (mkSlice o 8) = Some m'
         /\ m' = splice m o (Spec.encrypt (rk t) (view m (mkSlice o 8)))
         /\ Shared.Decrypt t m' (mkSlice o 8) (mkSlice o 8) = Some m.
Proof.
  intros HK HB Ho.
  destruct (New_valid key HK) as (t & E & HR).
  exists t; split; [exact E|].
  set (w := mkSlice o 8).
  assert (Hw : off w + len w <= length m) by exact Ho.
  pose proof (view_length m w Hw) as VL; cbn [len w] in VL.
  pose proof (view_bytes m w HB) as VB.
  destruct (encrypt_ok (rk t) (view m w) VL VB) as [CL CB].
  set (c := Spec.encrypt (rk t) (view m w)) in *.
  assert (Hc : o + length c <= length m) by (rewrite CL; exact Ho).
  exists (splice m o c); split; [|split; [reflexivity|]].
  - rewrite (proj1 (shared_transforms t m w w Hw Hw)).
    rewrite Encrypt_ok by (assumption || lia).
    rewrite pad8_full, drop_ge, app_nil_r by lia; reflexivity.
  - assert (Hw' : off w + len w <= length (splice m o c))
      by (rewrite splice_length by exact Hc; exact Ho).
    rewrite (proj2 (shared_transforms t (splice m o c) w w Hw' Hw')).
    assert (V : view (splice m o c) w = c).
    { unfold w; rewrite <- CL; apply view_splice, Hc. }
    rewrite V, Decrypt_ok by (assumption || lia).
    rewrite pad8_full, drop_ge, app_nil_r by lia.
    unfold c; rewrite decrypt_encrypt by assumption.
    cbn [mbind option_bind off w]; f_equal.
    rewrite splice_splice by (assumption || lia).
    apply (splice_view m w Hw).
Qed.

Lemma in_place_round_trip_witness :
  exists t, New key80 = Some (Some t, None)
    /\ exists m',
         Shared.Encrypt t (plain ++ plain) (mkSlice 8 8) (mkSlice 8 8) = Some m'
         /\ m' = splice (plain ++ plain) 8
                   (Spec.encrypt (rk t) (view (plain ++ plain) (mkSlice 8 8)))
         /\ Shared.Decrypt t m' (mkSlice 8 8) (mkSlice 8 8) = Some (plain ++ plain).
Proof.
  assert (B : Forall is_byte (plain ++ plain))
    by (apply Forall_app; split; exact plain_bytes).
  assert (L : 8 + 8 <= length (plain ++ plain)) by (cbn; lia).
  exact (in_place_round_trip key80 (plain ++ plain) 8 valid_key80 B L).
Defined.

(** ** The error message *)

Lemma to_int_proper k : Z.to_int k <> Pos Nil /\ Z.to_int k <> Neg Nil.
Proof.
  destruct k as [|p|p]; cbn; split; try discriminate;
    intros [= H]; revert H; apply Unsigned.to_uint_nonnil.
Qed.

Lemma Itoa_inj k1 k2 : Itoa k1 = Itoa k2 -> k1 = k2.
Proof.
  unfold Itoa; intros H.
  apply (f_equal NilZero.int_of_string) in H.
  rewrite !NilZero.isi in H by apply to_int_proper.
  injection H as H; apply (f_equal Z.of_int) in H.
  rewrite !DecimalZ.of_to in H; exact H.
Qed.

Lemma append_cancel (p a b : string) :
  String.append p a = String.append p b -> a = b.
Proof.
  induction p as [|c p IH]; cbn [String.append]; intros H; [exact H|].
  injection H as H; apply IH, H.
Qed.

(** X9: the message of a key-size error determines the size: two
    different sizes never give the same message. *)
Theorem Error_distinct (k1 k2 : KeySizeError) : k1 <> k2 -> Error k1 <> Error k2.
Proof.
  intros Hne H; apply Hne, Itoa_inj.
  unfold Error in H; apply append_cancel in H; exact H.
Qed.

Lemma Error_distinct_witness : Error 9%Z <> Error 11%Z.
Proof. apply (Error_distinct 9%Z 11%Z); discriminate. Defined.
